(** * sistemaRestaurante: the restaurant waitlist and its table inventory

    A verification development for [src/sistemaRestaurante.py]: the classes
    [Node] and [RestaurantWaitlist].  The Tkinter class [RestaurantApp] only
    calls into the engine and is not modelled.

    The waitlist is a singly linked list owned by the engine; its methods
    are embedded as functions on the list of nodes reachable from [head]
    (a node's [next] pointer is the tail of that list).  [get_waitlist]
    hands objects to its caller, so for it the object store is modelled as
    well, in module [Store].

    Module [Linked] has the other methods on that store too, pointer by
    pointer, and the last part of the file shows that they do on the linked
    nodes what the functions on the queue do.  Of [RestaurantApp] only the
    loop that fills the table of [update_displays] is modelled
    ([tree_rows]); the rest of that class is widget code. *)

From stdpp Require Import gmap strings list fin_maps sorting pretty.

Open Scope Z_scope.

(** ** Data model *)

(** [class Node]: the attributes of one waiting client.  The attribute
    [next] is the rest of the list the node heads. *)
Record Node := mkNode {
  client_name : string;
  party_size : Z;
  reservation_time : string
}.

(** [class RestaurantWaitlist]: [head] is the chain of nodes starting at
    [self.head] (empty when [self.head] is [None]), [tables] the dict from a
    table size to the number of free tables of that size. *)
Record RestaurantWaitlist := mkWaitlist {
  head : list Node;
  tables : gmap Z Z;
  wait_time_per_table : Z
}.

(** [RestaurantWaitlist.__init__]: takes no argument besides [self]. *)
Definition __init__ : RestaurantWaitlist :=
  {| head := [];
     tables := {[ 2 := 5; 4 := 3; 6 := 2 ]};
     wait_time_per_table := 30 |}.

Definition set_head (self : RestaurantWaitlist) (h : list Node) : RestaurantWaitlist :=
  {| head := h; tables := tables self;
     wait_time_per_table := wait_time_per_table self |}.

Definition set_tables (self : RestaurantWaitlist) (t : gmap Z Z) : RestaurantWaitlist :=
  {| head := head self; tables := t;
     wait_time_per_table := wait_time_per_table self |}.

(** ** Messages: the string literals and f-strings the methods return *)

Definition msg_no_clients : string := "No hay clientes en la lista de espera.".

Definition msg_calling (client_name : string) (table_size : Z) : string :=
  "Llamando a " +:+ client_name +:+ " para una mesa de "
    +:+ pretty table_size +:+ " personas.".

Definition msg_no_tables (client_name : string) (party_size : Z) : string :=
  "No hay mesas disponibles para " +:+ client_name +:+ " (grupo de "
    +:+ pretty party_size +:+ ").".

Definition msg_list_empty : string := "La lista de espera está vacía.".

Definition msg_cancelled (client_name : string) : string :=
  "Reservación de " +:+ client_name +:+ " cancelada.".

Definition msg_not_found (client_name : string) : string :=
  "No se encontró a " +:+ client_name +:+ " en la lista de espera.".

(** ** Methods *)

(** [add_client]: the [while current.next] walk from [current] to the last
    node, whose [next] is then set to [new_node]. *)
Fixpoint link_last (current : Node) (next : list Node) (new_node : Node) : list Node :=
  match next with
  | [] => [current; new_node]
  | n :: next' => current :: link_last n next' new_node
  end.

Definition add_client (self : RestaurantWaitlist)
    (client_name : string) (party_size : Z) (reservation_time : string)
    : RestaurantWaitlist :=
  let new_node := mkNode client_name party_size reservation_time in
  match head self with
  | [] => set_head self [new_node]
  | first :: next => set_head self (link_last first next new_node)
  end.

(** [sorted(self.tables.keys())] *)
Definition sorted_keys (d : gmap Z Z) : list Z :=
  merge_sort Z.le (map_to_list d).*1.

(** [_find_suitable_table]: the first size of the ascending walk with
    [party_size <= size]; [None] is Python's [None]. *)
Fixpoint first_fitting (party_size : Z) (sizes : list Z) : option Z :=
  match sizes with
  | [] => None
  | size :: sizes' =>
      if bool_decide (party_size ≤ size) then Some size
      else first_fitting party_size sizes'
  end.

Definition _find_suitable_table (self : RestaurantWaitlist) (party_size : Z) : option Z :=
  first_fitting party_size (sorted_keys (tables self)).

(** [call_next_table].  The outer [option] is [None] when the subscript
    [self.tables[table_size]] raises [KeyError].  [table_size and ...] is
    false for [None] and for the integer [0], without evaluating the
    subscript. *)
Definition call_next_table (self : RestaurantWaitlist)
    : option ((bool * string) * RestaurantWaitlist) :=
  match head self with
  | [] => Some ((false, msg_no_clients), self)
  | current :: next =>
      let unavailable :=
        ((false, msg_no_tables (client_name current) (party_size current)), self) in
      match _find_suitable_table self (party_size current) with
      | None => Some unavailable
      | Some table_size =>
          if bool_decide (table_size = 0) then Some unavailable
          else
            free ← tables self !! table_size;
            if bool_decide (0 < free) then
              Some ((true, msg_calling (client_name current) table_size),
                    {| head := next;
                       tables := <[table_size := free - 1]> (tables self);
                       wait_time_per_table := wait_time_per_table self |})
            else Some unavailable
      end
  end.

(** A row of [get_waitlist]: a dict with the keys ['name'], ['party_size']
    and ['time']. *)
Inductive value :=
  | VInt (z : Z)
  | VStr (s : string).

Definition row (n : Node) : gmap string value :=
  {[ "name" := VStr (client_name n);
     "party_size" := VInt (party_size n);
     "time" := VStr (reservation_time n) ]}.

(** [get_waitlist]: the [while current] walk appending one dict per node. *)
Fixpoint get_waitlist_from (current : list Node) (clients : list (gmap string value))
    : list (gmap string value) :=
  match current with
  | [] => clients
  | n :: next => get_waitlist_from next (clients ++ [row n])
  end.

Definition get_waitlist (self : RestaurantWaitlist) : list (gmap string value) :=
  get_waitlist_from (head self) [].

(** [cancel_reservation]: the walk that starts at the head and stops at the
    node whose successor carries [name] (or at the last node).  [unlink name
    next] is the new value of the chain [current.next]: [None] when the walk
    reaches the end, otherwise the chain with that successor skipped. *)
Fixpoint unlink (name : string) (next : list Node) : option (list Node) :=
  match next with
  | [] => None
  | n :: next' =>
      if bool_decide (client_name n = name) then Some next'
      else (n ::.) <$> unlink name next'
  end.

Definition cancel_reservation (self : RestaurantWaitlist) (name : string)
    : (bool * string) * RestaurantWaitlist :=
  match head self with
  | [] => ((false, msg_list_empty), self)
  | first :: next =>
      if bool_decide (client_name first = name) then
        ((true, msg_cancelled name), set_head self next)
      else
        match unlink name next with
        | Some next' => ((true, msg_cancelled name), set_head self (first :: next'))
        | None => ((false, msg_not_found name), self)
        end
  end.

(** [estimate_wait_time].  The counting walk, then the branch on
    [not table_size or self.tables[table_size] == 0]; [None] is a
    [KeyError] of the subscript. *)
Fixpoint count_from (current : list Node) (size : Z) (count : Z) : Z :=
  match current with
  | [] => count
  | n :: next =>
      count_from next size
        (if bool_decide (party_size n ≤ size) then count + 1 else count)
  end.

Definition estimate_wait_time (self : RestaurantWaitlist) (party_size : Z) : option Z :=
  let count := count_from (head self) party_size 0 in
  wait_time ←
    match _find_suitable_table self party_size with
    | None => Some (count * wait_time_per_table self)
    | Some table_size =>
        if bool_decide (table_size = 0) then Some (count * wait_time_per_table self)
        else
          free ← tables self !! table_size;
          if bool_decide (free = 0) then Some (count * wait_time_per_table self)
          else Some ((count - free) * wait_time_per_table self)
    end;
  Some (Z.max 0 wait_time).

(** [free_table] *)
Definition free_table (self : RestaurantWaitlist) (table_size : Z)
    : bool * RestaurantWaitlist :=
  match tables self !! table_size with
  | Some free => (true, set_tables self (<[table_size := free + 1]> (tables self)))
  | None => (false, self)
  end.

(** ** Runs of the engine *)

Inductive op :=
  | AddClient (client_name : string) (party_size : Z) (reservation_time : string)
  | CallNextTable
  | CancelReservation (client_name : string)
  | EstimateWaitTime (party_size : Z)
  | GetWaitlist
  | FreeTable (table_size : Z).

(** The state a call leaves behind; [None] when the call raises. *)
Definition step (o : op) (self : RestaurantWaitlist) : option RestaurantWaitlist :=
  match o with
  | AddClient n p t => Some (add_client self n p t)
  | CallNextTable => snd <$> call_next_table self
  | CancelReservation n => Some (snd (cancel_reservation self n))
  | EstimateWaitTime p => _ ← estimate_wait_time self p; Some self
  | GetWaitlist => Some self
  | FreeTable c => Some (snd (free_table self c))
  end.

Fixpoint run (ops : list op) (self : RestaurantWaitlist) : option RestaurantWaitlist :=
  match ops with
  | [] => Some self
  | o :: ops' => self' ← step o self; run ops' self'
  end.

(** The states [RestaurantWaitlist()] returns, and the states the engine
    is in after any calls on such an object. *)
Definition constructed (self : RestaurantWaitlist) : Prop :=
  self = __init__.

Definition reachable (self : RestaurantWaitlist) : Prop :=
  ∃ ops, run ops __init__ = Some self.

(** [add_client] called once per entry of [clients], in order. *)
Definition add_clients (self : RestaurantWaitlist) (clients : list Node)
    : RestaurantWaitlist :=
  fold_left
    (λ s n, add_client s (client_name n) (party_size n) (reservation_time n))
    clients self.

(** [call_next_table] called [k] times in a row, with the results in call
    order. *)
Fixpoint call_next_tables (k : nat) (self : RestaurantWaitlist)
    : option (list (bool * string) * RestaurantWaitlist) :=
  match k with
  | O => Some ([], self)
  | S k' =>
      '(r, self') ← call_next_table self;
      '(rs, self'') ← call_next_tables k' self';
      Some (r :: rs, self'')
  end.

(** [free_table] called [k] times in a row for the same size. *)
Fixpoint free_tables (k : nat) (self : RestaurantWaitlist) (table_size : Z)
    : RestaurantWaitlist :=
  match k with
  | O => self
  | S k' => free_tables k' (snd (free_table self table_size)) table_size
  end.

(** ** The object store, for [get_waitlist]

    [get_waitlist] returns a list object holding dict objects; whether the
    caller can reach the engine through them is a question about object
    identity.  Here the objects live in a store, the engine's own ones
    included, and [get_waitlist] is the walk over the linked nodes that
    allocates the dicts and appends them to the list. *)
Module Store.

Abbreviation loc := positive.

Inductive object :=
  | ONode (client_name : string) (party_size : Z) (reservation_time : string)
          (next : option loc)
  | OWaitlist (head : option loc) (tables : loc) (wait_time_per_table : Z)
  | OTables (counts : gmap Z Z)
  | ODict (items : gmap string value)
  | OList (items : list loc).

Abbreviation store := (gmap loc object).

(** The [while current] loop: one pass per unit of [fuel]; [None] when the
    fuel runs out or an attribute is missing. *)
Fixpoint get_waitlist_loop (fuel : nat) (h : store) (clients : loc)
    (current : option loc) : option store :=
  match current with
  | None => Some h
  | Some p =>
      match fuel with
      | O => None
      | S fuel' =>
          match h !! p with
          | Some (ONode name size time next) =>
              let d := fresh (dom h) in
              let h1 := <[d := ODict (row (mkNode name size time))]> h in
              match h1 !! clients with
              | Some (OList items) =>
                  get_waitlist_loop fuel'
                    (<[clients := OList (items ++ [d])]> h1) clients next
              | _ => None
              end
          | _ => None
          end
      end
  end.

(** [get_waitlist]: [clients = []] is a new list object; the result is
    its location and the store after the walk. *)
Definition get_waitlist (fuel : nat) (self : loc) (h : store)
    : option (loc * store) :=
  match h !! self with
  | Some (OWaitlist hd _ _) =>
      let clients := fresh (dom h) in
      h' ← get_waitlist_loop fuel (<[clients := OList []]> h) clients hd;
      Some (clients, h')
  | _ => None
  end.

(** The nodes linked from [current] are the entries [q], in order. *)
Inductive chain (h : store) : option loc → list Node → Prop :=
  | chain_nil : chain h None []
  | chain_cons p n next q :
      h !! p = Some (ONode (client_name n) (party_size n) (reservation_time n) next) →
      chain h next q →
      chain h (Some p) (n :: q).

(** The engine object at [self] is in the state [w]. *)
Definition represents (h : store) (self : loc) (w : RestaurantWaitlist) : Prop :=
  ∃ hd t,
    h !! self = Some (OWaitlist hd t (wait_time_per_table w))
    ∧ h !! t = Some (OTables (tables w))
    ∧ chain h hd (head w).

(** What a caller reads from the list at [clients]: its dicts, in order. *)
Definition read_dict (h : store) (d : loc) : option (gmap string value) :=
  match h !! d with
  | Some (ODict r) => Some r
  | _ => None
  end.

Definition read_rows (h : store) (clients : loc)
    : option (list loc * list (gmap string value)) :=
  match h !! clients with
  | Some (OList items) => rows ← mapM (read_dict h) items; Some (items, rows)
  | _ => None
  end.

End Store.

(** ** Notions the statements use *)

(** [c] is the smallest configured table size that seats [p] people. *)
Definition best_fit (t : gmap Z Z) (p c : Z) : Prop :=
  c ∈ dom t ∧ p ≤ c ∧ ∀ c', c' ∈ dom t → p ≤ c' → c ≤ c'.

(** No configured table size seats [p] people. *)
Definition no_fit (t : gmap Z Z) (p : Z) : Prop :=
  ∀ c, c ∈ dom t → c < p.

(** The inventory of the data model: sizes are positive, counts are not
    negative. *)
Definition positive_sizes (t : gmap Z Z) : Prop :=
  ∀ c, c ∈ dom t → 0 < c.

Definition counts_nonneg (t : gmap Z Z) : Prop :=
  ∀ c n, t !! c = Some n → 0 ≤ n.

(** The number of waiting groups of at most [p] people. *)
Definition groups_upto (q : list Node) (p : Z) : Z :=
  Z.of_nat (length (filter (λ n, party_size n ≤ p) q)).

(** The entries that the [add_client] calls of a run create, in call
    order. *)
Fixpoint added (ops : list op) : list Node :=
  match ops with
  | [] => []
  | AddClient n p t :: ops' => mkNode n p t :: added ops'
  | _ :: ops' => added ops'
  end.

(** ** The methods on the linked nodes

    The methods once more, this time statement by statement as the source
    has them: on [Node] objects linked through [next] in the object store,
    the engine object and its [tables] dict being updated in place.  A walk
    along [next] spends one unit of [fuel] per pass of its loop; [None] is a
    walk out of fuel or a missing attribute or key. *)
Module Linked.

Import Store.

(** The nodes linked from [current], with the locations they live at. *)
Inductive chain_at (h : store) : option loc → list loc → list Node → Prop :=
  | chain_at_nil : chain_at h None [] []
  | chain_at_cons p n next ls q :
      h !! p = Some (ONode (client_name n) (party_size n) (reservation_time n) next) →
      chain_at h next ls q →
      chain_at h (Some p) (p :: ls) (n :: q).

(** [while current.next: current = current.next] *)
Fixpoint walk_to_last (fuel : nat) (h : store) (current : loc) : option loc :=
  match h !! current with
  | Some (ONode _ _ _ None) => Some current
  | Some (ONode _ _ _ (Some next)) =>
      match fuel with
      | O => None
      | S fuel' => walk_to_last fuel' h next
      end
  | _ => None
  end.

Definition add_client (fuel : nat) (self : loc)
    (client_name : string) (party_size : Z) (reservation_time : string)
    (h : store) : option store :=
  match h !! self with
  | Some (OWaitlist hd t w) =>
      let new_node := fresh (dom h) in
      let h1 := <[new_node := ONode client_name party_size reservation_time None]> h in
      match hd with
      | None => Some (<[self := OWaitlist (Some new_node) t w]> h1)
      | Some first =>
          current ← walk_to_last fuel h1 first;
          match h1 !! current with
          | Some (ONode n s tm _) =>
              Some (<[current := ONode n s tm (Some new_node)]> h1)
          | _ => None
          end
      end
  | _ => None
  end.

Definition call_next_table (self : loc) (h : store)
    : option ((bool * string) * store) :=
  match h !! self with
  | Some (OWaitlist hd t w) =>
      match hd with
      | None => Some ((false, msg_no_clients), h)
      | Some current =>
          match h !! current, h !! t with
          | Some (ONode name size _ next), Some (OTables counts) =>
              let unavailable := ((false, msg_no_tables name size), h) in
              match first_fitting size (sorted_keys counts) with
              | None => Some unavailable
              | Some table_size =>
                  if bool_decide (table_size = 0) then Some unavailable
                  else
                    free ← counts !! table_size;
                    if bool_decide (0 < free) then
                      let h1 := <[t := OTables (<[table_size := free - 1]> counts)]> h in
                      Some ((true, msg_calling name table_size),
                            <[self := OWaitlist next t w]> h1)
                    else Some unavailable
              end
          | _, _ => None
          end
      end
  | _ => None
  end.

(** [while current.next and current.next.client_name != client_name:
    current = current.next] *)
Fixpoint walk_to_match (fuel : nat) (h : store) (name : string) (current : loc)
    : option loc :=
  match h !! current with
  | Some (ONode _ _ _ None) => Some current
  | Some (ONode _ _ _ (Some next)) =>
      match h !! next with
      | Some (ONode next_name _ _ _) =>
          if bool_decide (next_name ≠ name) then
            match fuel with
            | O => None
            | S fuel' => walk_to_match fuel' h name next
            end
          else Some current
      | _ => None
      end
  | _ => None
  end.

Definition cancel_reservation (fuel : nat) (self : loc) (name : string) (h : store)
    : option ((bool * string) * store) :=
  match h !! self with
  | Some (OWaitlist hd t w) =>
      match hd with
      | None => Some ((false, msg_list_empty), h)
      | Some first =>
          match h !! first with
          | Some (ONode first_name _ _ next) =>
              if bool_decide (first_name = name) then
                Some ((true, msg_cancelled name), <[self := OWaitlist next t w]> h)
              else
                current ← walk_to_match fuel h name first;
                match h !! current with
                | Some (ONode n s tm (Some found)) =>
                    match h !! found with
                    | Some (ONode _ _ _ after) =>
                        Some ((true, msg_cancelled name),
                              <[current := ONode n s tm after]> h)
                    | _ => None
                    end
                | Some (ONode _ _ _ None) => Some ((false, msg_not_found name), h)
                | _ => None
                end
          | _ => None
          end
      end
  | _ => None
  end.

(** The counting loop of [estimate_wait_time]. *)
Fixpoint count_walk (fuel : nat) (h : store) (size : Z) (current : option loc)
    (count : Z) : option Z :=
  match current with
  | None => Some count
  | Some p =>
      match fuel with
      | O => None
      | S fuel' =>
          match h !! p with
          | Some (ONode _ s _ next) =>
              count_walk fuel' h size next
                (if bool_decide (s ≤ size) then count + 1 else count)
          | _ => None
          end
      end
  end.

Definition estimate_wait_time (fuel : nat) (self : loc) (party_size : Z) (h : store)
    : option Z :=
  match h !! self with
  | Some (OWaitlist hd t w) =>
      count ← count_walk fuel h party_size hd 0;
      match h !! t with
      | Some (OTables counts) =>
          wait_time ←
            match first_fitting party_size (sorted_keys counts) with
            | None => Some (count * w)
            | Some table_size =>
                if bool_decide (table_size = 0) then Some (count * w)
                else
                  free ← counts !! table_size;
                  if bool_decide (free = 0) then Some (count * w)
                  else Some ((count - free) * w)
            end;
          Some (Z.max 0 wait_time)
      | _ => None
      end
  | _ => None
  end.

Definition free_table (self : loc) (table_size : Z) (h : store)
    : option (bool * store) :=
  match h !! self with
  | Some (OWaitlist _ t _) =>
      match h !! t with
      | Some (OTables counts) =>
          match counts !! table_size with
          | Some free =>
              Some (true, <[t := OTables (<[table_size := free + 1]> counts)]> h)
          | None => Some (false, h)
          end
      | _ => None
      end
  | _ => None
  end.

(** [RestaurantWaitlist()]: the engine object and the dict it creates for
    [tables] are two new objects; the result is the engine's location. *)
Definition __init__ (h : store) : loc * store :=
  let self := fresh (dom h) in
  let t := fresh ({[self]} ∪ dom h) in
  (self,
   <[self := OWaitlist None t 30]>
     (<[t := OTables {[ 2 := 5; 4 := 3; 6 := 2 ]}]> h)).

(** One call on the engine at [self], its walks fuelled with the number of
    objects in the store; the store the call leaves behind. *)
Definition step (o : op) (self : loc) (h : store) : option store :=
  let fuel := size h in
  match o with
  | AddClient n p t => add_client fuel self n p t h
  | CallNextTable => snd <$> call_next_table self h
  | CancelReservation n => snd <$> cancel_reservation fuel self n h
  | EstimateWaitTime p => _ ← estimate_wait_time fuel self p h; Some h
  | GetWaitlist => snd <$> Store.get_waitlist fuel self h
  | FreeTable c => snd <$> free_table self c h
  end.

Fixpoint run (ops : list op) (self : loc) (h : store) : option store :=
  match ops with
  | [] => Some h
  | o :: ops' => h' ← step o self h; run ops' self h'
  end.

(** A store with the engine at [1], its [tables] dict at [2] and the nodes
    of two waiting clients at [3] and [4]. *)
Definition two_clients : store :=
  {[ 1%positive := OWaitlist (Some 3%positive) 2%positive 30;
     2%positive := OTables {[ 2 := 5; 4 := 3; 6 := 2 ]};
     3%positive := ONode "Ana" 2 "19:00" (Some 4%positive);
     4%positive := ONode "Bob" 4 "19:05" None ]}.

End Linked.

(** ** The caller: the rows [RestaurantApp.update_displays] shows

    The loop of [update_displays] over [enumerate(clients, 1)], with
    [clients] the result of [get_waitlist]: per client the tuple it passes
    to [tree.insert] as [values].  [None] is a [KeyError] of a subscript
    [client[...]] or of [estimate_wait_time], or the [TypeError] of an
    estimate asked for a party size that is not an integer. *)
Definition format (v : value) : string :=
  match v with
  | VInt z => pretty z
  | VStr s => s
  end.

Fixpoint tree_rows_from (self : RestaurantWaitlist) (i : Z)
    (clients : list (gmap string value))
    : option (list (Z * value * string * value * string)) :=
  match clients with
  | [] => Some []
  | client :: clients' =>
      size ← client !! "party_size";
      wait_time ← match size with
                  | VInt p => estimate_wait_time self p
                  | VStr _ => None
                  end;
      name ← client !! "name";
      time ← client !! "time";
      rows ← tree_rows_from self (i + 1) clients';
      Some ((i, name, format size +:+ " personas", time,
             pretty wait_time +:+ " min") :: rows)
  end.

Definition tree_rows (self : RestaurantWaitlist)
    : option (list (Z * value * string * value * string)) :=
  tree_rows_from self 1 (get_waitlist self).

(** ** Facts about the helpers *)

Lemma elem_of_sorted_keys (d : gmap Z Z) (c : Z) :
  c ∈ sorted_keys d ↔ c ∈ dom d.
Proof.
  unfold sorted_keys. rewrite merge_sort_Permutation.
  rewrite elem_of_dom, list_elem_of_fmap. split.
  - intros [[k v] [-> Hin]]. apply elem_of_map_to_list in Hin. by exists v.
  - intros [v Hv]. exists (c, v). split; [done|]. by apply elem_of_map_to_list.
Qed.

Lemma sorted_keys_ascending (d : gmap Z Z) :
  StronglySorted Z.le (sorted_keys d).
Proof. apply (StronglySorted_merge_sort Z.le). Qed.

Lemma first_fitting_Some (p : Z) (sizes : list Z) (c : Z) :
  StronglySorted Z.le sizes →
  first_fitting p sizes = Some c →
  c ∈ sizes ∧ p ≤ c ∧ ∀ c', c' ∈ sizes → p ≤ c' → c ≤ c'.
Proof.
  induction 1 as [|size sizes Hs IH Hall]; simpl; [done|].
  case_bool_decide as Hle.
  - intros [= ->]. split; [left|]. split; [done|].
    intros c' Hc' _. apply elem_of_cons in Hc' as [->|Hc']; [lia|].
    rewrite Forall_forall in Hall. by apply Hall.
  - intros Hf. destruct (IH Hf) as (Hin & Hpc & Hmin).
    split; [by right|]. split; [done|].
    intros c' Hc' Hpc'. apply elem_of_cons in Hc' as [->|Hc']; [lia|]. auto.
Qed.

Lemma first_fitting_None (p : Z) (sizes : list Z) :
  first_fitting p sizes = None ↔ ∀ c, c ∈ sizes → c < p.
Proof.
  induction sizes as [|size sizes IH]; simpl.
  - split; [|done]. intros _ c Hc. by apply elem_of_nil in Hc.
  - case_bool_decide as Hle.
    + split; [done|]. intros H. specialize (H size (list_elem_of_here _ _)). lia.
    + rewrite IH. split.
      * intros H c Hc. apply elem_of_cons in Hc as [->|Hc]; [lia|auto].
      * intros H c Hc. apply H. by right.
Qed.

Lemma find_suitable_table_Some (self : RestaurantWaitlist) (p c : Z) :
  _find_suitable_table self p = Some c ↔ best_fit (tables self) p c.
Proof.
  unfold _find_suitable_table, best_fit. split.
  - intros Hf.
    destruct (first_fitting_Some _ _ _ (sorted_keys_ascending _) Hf) as (Hin & Hpc & Hmin).
    rewrite elem_of_sorted_keys in Hin. split; [done|]. split; [done|].
    intros c' Hc'. apply Hmin. by rewrite elem_of_sorted_keys.
  - intros (Hin & Hpc & Hmin).
    destruct (first_fitting p (sorted_keys (tables self))) as [c0|] eqn:Hf.
    + destruct (first_fitting_Some _ _ _ (sorted_keys_ascending _) Hf) as (Hin0 & Hpc0 & Hmin0).
      rewrite elem_of_sorted_keys in Hin0.
      f_equal. apply Z.le_antisymm.
      * apply Hmin0; [by rewrite elem_of_sorted_keys|done].
      * by apply Hmin.
    + rewrite first_fitting_None in Hf.
      rewrite <- elem_of_sorted_keys in Hin. specialize (Hf c Hin). lia.
Qed.

Lemma find_suitable_table_None (self : RestaurantWaitlist) (p : Z) :
  _find_suitable_table self p = None ↔ no_fit (tables self) p.
Proof.
  unfold _find_suitable_table, no_fit. rewrite first_fitting_None.
  split; intros H c Hc; apply H; by apply elem_of_sorted_keys.
Qed.

Lemma best_fit_unique (t : gmap Z Z) (p c c' : Z) :
  best_fit t p c → best_fit t p c' → c = c'.
Proof.
  intros (H1 & H2 & H3) (H1' & H2' & H3'). apply Z.le_antisymm; auto.
Qed.

Lemma best_fit_or_no_fit (t : gmap Z Z) (p : Z) :
  (∃ c, best_fit t p c) ∨ no_fit t p.
Proof.
  destruct (_find_suitable_table (mkWaitlist [] t 0) p) as [c|] eqn:Hf.
  - left. exists c. by apply find_suitable_table_Some in Hf.
  - right. by apply find_suitable_table_None in Hf.
Qed.

Example scenario_1 :
  call_next_table (add_client (set_tables __init__ {[2 := 1; 4 := 0; 6 := 0]}) "Ana" 2 "19:00")
  = Some ((true, "Llamando a Ana para una mesa de 2 personas."),
          set_tables __init__ {[2 := 0; 4 := 0; 6 := 0]}).
Proof. vm_compute. reflexivity. Qed.

(** ** Seating the head of the queue *)


Lemma msg_list_empty_not_not_found (name : string) :
  msg_list_empty ≠ msg_not_found name.
Proof. unfold msg_list_empty, msg_not_found. simpl. discriminate. Qed.

(** [self.tables[table_size]] never raises: the size comes from the keys. *)
Lemma best_fit_lookup (t : gmap Z Z) (p c : Z) :
  best_fit t p c → ∃ free, t !! c = Some free.
Proof. intros (Hin & _). by apply elem_of_dom in Hin. Qed.

Lemma call_next_table_no_fit (self : RestaurantWaitlist) (current : Node) (next : list Node) :
  head self = current :: next →
  no_fit (tables self) (party_size current) →
  call_next_table self
  = Some ((false, msg_no_tables (client_name current) (party_size current)), self).
Proof.
  intros Hh Hn. unfold call_next_table. rewrite Hh.
  apply find_suitable_table_None in Hn. by rewrite Hn.
Qed.

Lemma call_next_table_fit (self : RestaurantWaitlist) (current : Node) (next : list Node)
    (c free : Z) :
  head self = current :: next →
  best_fit (tables self) (party_size current) c →
  tables self !! c = Some free →
  call_next_table self
  = if bool_decide (c ≠ 0 ∧ 0 < free) then
      Some ((true, msg_calling (client_name current) c),
            {| head := next;
               tables := <[c := free - 1]> (tables self);
               wait_time_per_table := wait_time_per_table self |})
    else Some ((false, msg_no_tables (client_name current) (party_size current)), self).
Proof.
  intros Hh Hb Hl. unfold call_next_table. rewrite Hh.
  apply find_suitable_table_Some in Hb. rewrite Hb.
  case_bool_decide as H0.
  - rewrite bool_decide_eq_false_2; [done|]. intros [? _]. done.
  - rewrite Hl. simpl. case_bool_decide as Hfree.
    + by rewrite bool_decide_eq_true_2.
    + rewrite bool_decide_eq_false_2; [done|]. intros [_ ?]. done.
Qed.

(** The call returns in every state. *)
Lemma call_next_table_total (self : RestaurantWaitlist) :
  ∃ r self', call_next_table self = Some (r, self').
Proof.
  destruct (head self) as [|current next] eqn:Hh.
  - unfold call_next_table. rewrite Hh. eauto.
  - destruct (best_fit_or_no_fit (tables self) (party_size current)) as [[c Hb]|Hn].
    + destruct (best_fit_lookup _ _ _ Hb) as [free Hl].
      rewrite (call_next_table_fit _ _ _ _ _ Hh Hb Hl). case_bool_decide; eauto.
    + rewrite (call_next_table_no_fit _ _ _ Hh Hn). eauto.
Qed.

(** C1: in a state whose queue is [current :: next] (table sizes positive),
    if the smallest configured size [c] that seats the head's party exists
    and has a free count above 0, [call_next_table] lowers the count of [c]
    by exactly 1, leaves [next] as the queue and returns success with the
    head's name and [c]; and whenever the call succeeds, the size it names
    seats the head's party and is the smallest configured size that does. *)
Theorem call_next_table_seats_head
    (self : RestaurantWaitlist) (current : Node) (next : list Node) :
  positive_sizes (tables self) →
  head self = current :: next →
  (∀ c free,
      best_fit (tables self) (party_size current) c →
      tables self !! c = Some free →
      0 < free →
      call_next_table self
      = Some ((true, msg_calling (client_name current) c),
              {| head := next;
                 tables := <[c := free - 1]> (tables self);
                 wait_time_per_table := wait_time_per_table self |}))
  ∧ (∀ msg self',
      call_next_table self = Some ((true, msg), self') →
      ∃ c, msg = msg_calling (client_name current) c
           ∧ party_size current ≤ c
           ∧ best_fit (tables self) (party_size current) c).
Proof.
  intros Hpos Hh. split.
  - intros c free Hb Hl Hfree.
    rewrite (call_next_table_fit _ _ _ _ _ Hh Hb Hl).
    rewrite bool_decide_eq_true_2; [done|].
    split; [|done]. destruct Hb as (Hin & _). specialize (Hpos c Hin). lia.
  - intros msg self' Hcall.
    destruct (best_fit_or_no_fit (tables self) (party_size current)) as [[c Hb]|Hn].
    + destruct (best_fit_lookup _ _ _ Hb) as [free Hl].
      rewrite (call_next_table_fit _ _ _ _ _ Hh Hb Hl) in Hcall.
      case_bool_decide; [|done]. injection Hcall as <- <-.
      exists c. split; [done|]. split; [apply Hb|done].
    + by rewrite (call_next_table_no_fit _ _ _ Hh Hn) in Hcall.
Qed.

Lemma init_tables_dom : dom (tables __init__) = {[2; 4; 6]}.
Proof. simpl. rewrite !dom_insert_L, dom_singleton_L. set_solver. Qed.

Lemma init_positive_sizes : positive_sizes (tables __init__).
Proof. intros c. rewrite init_tables_dom. set_unfold. lia. Qed.

Lemma init_counts_nonneg : counts_nonneg (tables __init__).
Proof.
  intros c n. simpl. intros H.
  apply lookup_insert_Some in H as [[_ <-]|[_ H]]; [lia|].
  apply lookup_insert_Some in H as [[_ <-]|[_ H]]; [lia|].
  apply lookup_singleton_Some in H as [_ <-]. lia.
Qed.

Lemma call_next_table_seats_head_witness :
  let self := add_client (add_client __init__ "Ana" 3 "19:00") "Bob" 2 "19:05" in
  call_next_table self
  = Some ((true, msg_calling "Ana" 4),
          {| head := [mkNode "Bob" 2 "19:05"];
             tables := <[4 := 3 - 1]> (tables self);
             wait_time_per_table := wait_time_per_table self |}).
Proof.
  intros self.
  refine (proj1 (call_next_table_seats_head self (mkNode "Ana" 3 "19:00")
                   [mkNode "Bob" 2 "19:05"] _ _) 4 3 _ _ _).
  - exact init_positive_sizes.
  - reflexivity.
  - apply find_suitable_table_Some. vm_compute. reflexivity.
  - vm_compute. reflexivity.
  - lia.
Defined.

(** ** Failures of [call_next_table] *)

Example scenario_2 :
  let self := add_client (set_tables __init__ {[2 := 0; 4 := 0; 6 := 0]}) "Bob" 2 "19:00" in
  call_next_table self
  = Some ((false, "No hay mesas disponibles para Bob (grupo de 2)."), self).
Proof. vm_compute. reflexivity. Qed.

Example scenario_4 :
  call_next_table __init__
  = Some ((false, "No hay clientes en la lista de espera."), __init__).
Proof. reflexivity. Qed.



(** The head cannot be seated, the entry behind it could: the call fails
    and nothing changes. *)
Example head_only_policy :
  let self := add_client (add_client __init__ "Grande" 8 "19:00") "Ana" 2 "19:05" in
  call_next_table self
  = Some ((false, "No hay mesas disponibles para Grande (grupo de 8)."), self).
Proof. vm_compute. reflexivity. Qed.

(** ** First in, first out *)

Lemma link_last_app (current : Node) (next : list Node) (new_node : Node) :
  link_last current next new_node = (current :: next) ++ [new_node].
Proof.
  revert current. induction next as [|n next IH]; intros current; simpl; [done|].
  by rewrite IH.
Qed.

Lemma add_client_spec (self : RestaurantWaitlist) (name : string) (size : Z) (time : string) :
  add_client self name size time = set_head self (head self ++ [mkNode name size time]).
Proof.
  unfold add_client. destruct (head self) as [|first next]; [done|].
  by rewrite link_last_app.
Qed.

Lemma add_clients_spec (self : RestaurantWaitlist) (clients : list Node) :
  add_clients self clients = set_head self (head self ++ clients).
Proof.
  unfold add_clients. revert self.
  induction clients as [|[name size time] clients IH]; intros self; simpl.
  - rewrite app_nil_r. by destruct self.
  - rewrite IH, add_client_spec. unfold set_head. simpl. by rewrite <- app_assoc.
Qed.

Lemma call_next_table_success (self self' : RestaurantWaitlist) (msg : string) :
  call_next_table self = Some ((true, msg), self') →
  ∃ current c, head self = current :: head self'
               ∧ msg = msg_calling (client_name current) c.
Proof.
  unfold call_next_table. destruct (head self) as [|current next]; [done|].
  destruct (_find_suitable_table self (party_size current)) as [c|]; [|done].
  case_bool_decide; [done|].
  destruct (tables self !! c) as [free|]; [|done]. simpl.
  case_bool_decide; [|done]. intros [= <- <-]. by exists current, c.
Qed.

Lemma call_next_tables_served (k : nat) (self self' : RestaurantWaitlist)
    (results : list (bool * string)) :
  call_next_tables k self = Some (results, self') →
  Forall (λ r, r.1 = true) results →
  ∀ (i : nat) r, results !! i = Some r →
    ∃ n c, head self !! i = Some n ∧ r = (true, msg_calling (client_name n) c).
Proof.
  revert self results. induction k as [|k IH]; intros self results; simpl.
  - intros [= <- <-] _ i r Hi. by rewrite lookup_nil in Hi.
  - destruct (call_next_table self) as [[[ok msg] self1]|] eqn:Hcall; [|done]. simpl.
    destruct (call_next_tables k self1) as [[rs self2]|] eqn:Hrest; [|done]. simpl.
    intros [= <- <-] Hall i r Hi.
    apply Forall_cons in Hall as [Hok Hall]. simpl in Hok. subst ok.
    destruct (call_next_table_success _ _ _ Hcall) as (current & c & Hh & ->).
    rewrite Hh. destruct i as [|i]; simpl in *.
    + injection Hi as <-. eauto.
    + by apply (IH self1 rs).
Qed.

Lemma call_next_tables_total (k : nat) (self : RestaurantWaitlist) :
  ∃ results self',
    call_next_tables k self = Some (results, self') ∧ length results = k.
Proof.
  revert self. induction k as [|k IH]; intros self; simpl; [by eauto|].
  destruct (call_next_table_total self) as (r & self1 & ->). simpl.
  destruct (IH self1) as (rs & self2 & -> & Hlen). simpl.
  eexists _, _. split; [done|]. simpl. by rewrite Hlen.
Qed.

(** C3: starting from an empty queue, after [add_client] for each entry of
    [clients] in order, [k] calls of [call_next_table] all return; if every
    one of them finds a table, the i-th call returns success with the name
    of the i-th client added. *)
Theorem fifo_order (self : RestaurantWaitlist) (clients : list Node) (k : nat) :
  head self = [] →
  ∃ results self',
    call_next_tables k (add_clients self clients) = Some (results, self')
    ∧ length results = k
    ∧ (Forall (λ r, r.1 = true) results →
       ∀ (i : nat) r, results !! i = Some r →
         ∃ n c, clients !! i = Some n
                ∧ r = (true, msg_calling (client_name n) c)).
Proof.
  intros Hempty.
  destruct (call_next_tables_total k (add_clients self clients))
    as (results & self' & Hrun & Hlen).
  exists results, self'. split; [done|]. split; [done|].
  intros Hall i r Hi.
  destruct (call_next_tables_served _ _ _ _ Hrun Hall i r Hi) as (n & c & Hn & ->).
  rewrite add_clients_spec, Hempty in Hn. simpl in Hn. eauto.
Qed.

Lemma fifo_order_witness :
  let clients := [mkNode "Ana" 2 "19:00"; mkNode "Bob" 4 "19:05"; mkNode "Eva" 2 "19:10"] in
  ∃ results self',
    call_next_tables 3 (add_clients __init__ clients) = Some (results, self')
    ∧ length results = 3%nat
    ∧ (Forall (λ r, r.1 = true) results →
       ∀ (i : nat) r, results !! i = Some r →
         ∃ n c, clients !! i = Some n
                ∧ r = (true, msg_calling (client_name n) c)).
Proof. intros clients. apply (fifo_order __init__ clients 3). reflexivity. Defined.

Example fifo_three :
  fst <$> call_next_tables 3
            (add_clients __init__
               [mkNode "Ana" 2 "19:00"; mkNode "Bob" 4 "19:05"; mkNode "Eva" 2 "19:10"])
  = Some [(true, "Llamando a Ana para una mesa de 2 personas.");
          (true, "Llamando a Bob para una mesa de 4 personas.");
          (true, "Llamando a Eva para una mesa de 2 personas.")].
Proof. vm_compute. reflexivity. Qed.

(** ** Cancelling a reservation *)

Lemma unlink_found (name : string) (pre post : list Node) (n : Node) :
  Forall (λ m, client_name m ≠ name) pre →
  client_name n = name →
  unlink name (pre ++ n :: post) = Some (pre ++ post).
Proof.
  intros Hpre Hn. induction Hpre as [|m pre Hm _ IH]; simpl.
  - by rewrite bool_decide_eq_true_2.
  - rewrite bool_decide_eq_false_2 by done. by rewrite IH.
Qed.

Lemma unlink_absent (name : string) (q : list Node) :
  Forall (λ m, client_name m ≠ name) q → unlink name q = None.
Proof.
  induction 1 as [|m q Hm _ IH]; simpl; [done|].
  rewrite bool_decide_eq_false_2 by done. by rewrite IH.
Qed.

(** The queue either holds no entry called [name] or splits at the first
    one. *)
Lemma first_occurrence (name : string) (q : list Node) :
  Forall (λ m, client_name m ≠ name) q
  ∨ ∃ pre n post, q = pre ++ n :: post
                  ∧ Forall (λ m, client_name m ≠ name) pre
                  ∧ client_name n = name.
Proof.
  induction q as [|m q IH]; [by left|].
  destruct (decide (client_name m = name)) as [Heq|Hne].
  - right. by exists [], m, q.
  - destruct IH as [Hall|(pre & n & post & -> & Hpre & Hn)].
    + left. by constructor.
    + right. exists (m :: pre), n, post. split; [done|]. split; [by constructor|done].
Qed.

(** C4, as the code has it: [cancel_reservation] removes exactly the first
    entry, head to tail, whose name equals the argument and returns success,
    the other entries keeping their order (so of several entries with that
    name only the first goes); on a queue that is not empty and holds no
    such entry it returns the not-found message and changes nothing; on the
    empty queue it returns a different failure, the list-is-empty message,
    and changes nothing. *)
Theorem cancel_reservation_spec (self : RestaurantWaitlist) (name : string) :
  (∀ pre n post,
      head self = pre ++ n :: post →
      Forall (λ m, client_name m ≠ name) pre →
      client_name n = name →
      cancel_reservation self name
      = ((true, msg_cancelled name), set_head self (pre ++ post)))
  ∧ (head self ≠ [] →
     Forall (λ m, client_name m ≠ name) (head self) →
     cancel_reservation self name = ((false, msg_not_found name), self))
  ∧ (head self = [] →
     cancel_reservation self name = ((false, msg_list_empty), self)
     ∧ msg_list_empty ≠ msg_not_found name).
Proof.
  unfold cancel_reservation. split; [|split].
  - intros pre n post Hh Hpre Hn. rewrite Hh.
    destruct Hpre as [|first pre Hfirst Hpre]; simpl.
    + by rewrite bool_decide_eq_true_2.
    + rewrite bool_decide_eq_false_2 by done.
      by rewrite (unlink_found _ _ _ _ Hpre Hn).
  - intros Hne Hall. destruct (head self) as [|first next]; [done|].
    apply Forall_cons in Hall as [Hfirst Hnext].
    rewrite bool_decide_eq_false_2 by done.
    by rewrite (unlink_absent _ _ Hnext).
  - intros ->. split; [done|]. apply msg_list_empty_not_not_found.
Qed.

Lemma cancel_reservation_spec_witness :
  let self := add_clients __init__
                [mkNode "A" 2 "19:00"; mkNode "B" 4 "19:05";
                 mkNode "C" 2 "19:10"; mkNode "B" 6 "19:15"] in
  cancel_reservation self "B"
  = ((true, msg_cancelled "B"),
     set_head self ([mkNode "A" 2 "19:00"] ++ [mkNode "C" 2 "19:10"; mkNode "B" 6 "19:15"]))
  ∧ cancel_reservation self "Zed" = ((false, msg_not_found "Zed"), self)
  ∧ cancel_reservation __init__ "Zed" = ((false, msg_list_empty), __init__).
Proof.
  intros self. split; [|split].
  - apply (proj1 (cancel_reservation_spec self "B") [mkNode "A" 2 "19:00"]
             (mkNode "B" 4 "19:05") [mkNode "C" 2 "19:10"; mkNode "B" 6 "19:15"]).
    + reflexivity.
    + repeat constructor. simpl. discriminate.
    + reflexivity.
  - apply (proj1 (proj2 (cancel_reservation_spec self "Zed"))).
    + simpl. discriminate.
    + repeat constructor; simpl; discriminate.
  - apply (proj2 (proj2 (cancel_reservation_spec __init__ "Zed"))). reflexivity.
Defined.

(** C4 as stated fails on the empty queue: no entry is called "Zed", yet
    the call does not return the not-found result. *)
Lemma cancel_reservation_empty_queue_counterexample :
  ¬ (∀ (self : RestaurantWaitlist) (name : string),
       Forall (λ m, client_name m ≠ name) (head self) →
       cancel_reservation self name = ((false, msg_not_found name), self)).
Proof.
  intros H. specialize (H __init__ "Zed" (Forall_nil_2 _)).
  vm_compute in H. discriminate H.
Qed.

Example scenario_3 :
  let self := add_clients __init__
                [mkNode "A" 2 "19:00"; mkNode "B" 4 "19:05"; mkNode "C" 2 "19:10"] in
  cancel_reservation self "B"
  = ((true, "Reservación de B cancelada."),
     add_clients __init__ [mkNode "A" 2 "19:00"; mkNode "C" 2 "19:10"]).
Proof. vm_compute. reflexivity. Qed.

Example scenario_6 :
  let self := add_clients __init__ [mkNode "A" 2 "19:00"; mkNode "B" 4 "19:05"] in
  cancel_reservation self "Zed"
  = ((false, "No se encontró a Zed en la lista de espera."), self).
Proof. vm_compute. reflexivity. Qed.

(** ** Adding a client *)

(** C10: [add_client] checks nothing: for every name (the empty string
    too), every integer party size (zero and negatives too) and every time
    string it returns the state with exactly one entry of those field values
    appended at the tail of the queue, the queue one longer and the
    inventory as it was. *)
Theorem add_client_appends (self : RestaurantWaitlist)
    (name : string) (size : Z) (time : string) :
  head (add_client self name size time) = head self ++ [mkNode name size time]
  ∧ length (head (add_client self name size time)) = S (length (head self))
  ∧ tables (add_client self name size time) = tables self
  ∧ wait_time_per_table (add_client self name size time) = wait_time_per_table self.
Proof.
  rewrite add_client_spec. simpl. rewrite length_app. simpl.
  split; [done|]. split; [lia|done].
Qed.

Example add_client_unvalidated :
  head (add_client (add_client __init__ "" 0 "") "x" (-3) "25:99")
  = [mkNode "" 0 ""; mkNode "x" (-3) "25:99"].
Proof. reflexivity. Qed.

(** ** Freeing a table *)

Lemma free_tables_lookup (k : nat) (self : RestaurantWaitlist) (c free : Z) :
  tables self !! c = Some free →
  tables (free_tables k self c) !! c = Some (free + Z.of_nat k).
Proof.
  revert self free. induction k as [|k IH]; intros self free Hl.
  - simpl. rewrite Hl. f_equal. lia.
  - cbn [free_tables]. unfold free_table at 1. rewrite Hl. simpl.
    rewrite (IH _ (free + 1)); [f_equal; lia|]. simpl. by rewrite lookup_insert_eq.
Qed.

(** C7: [free_table] returns [True] and raises the count of a configured
    size by exactly 1, every other count staying as it was, and returns
    [False] without any change for a size that is not configured; there is
    no upper bound: [k] calls raise the count by [k]. *)
Theorem free_table_spec (self : RestaurantWaitlist) (c : Z) :
  (∀ free, tables self !! c = Some free →
     free_table self c = (true, set_tables self (<[c := free + 1]> (tables self)))
     ∧ ∀ k : nat, tables (free_tables k self c) !! c = Some (free + Z.of_nat k))
  ∧ (c ∉ dom (tables self) → free_table self c = (false, self)).
Proof.
  split.
  - intros free Hl. split; [|intros k; by apply free_tables_lookup].
    unfold free_table. by rewrite Hl.
  - intros Hc. apply not_elem_of_dom in Hc. unfold free_table. by rewrite Hc.
Qed.

Lemma free_table_spec_witness :
  (free_table __init__ 2 = (true, set_tables __init__ (<[2 := 5 + 1]> (tables __init__)))
   ∧ ∀ k : nat, tables (free_tables k __init__ 2) !! 2 = Some (5 + Z.of_nat k))
  ∧ free_table __init__ 3 = (false, __init__).
Proof.
  split.
  - apply (proj1 (free_table_spec __init__ 2) 5). reflexivity.
  - apply (proj2 (free_table_spec __init__ 3)).
    rewrite init_tables_dom. set_unfold. lia.
Defined.

(** One call more than the five tables of two the constructor provides. *)
Example free_table_above_provisioning :
  tables (snd (free_table __init__ 2)) !! 2 = Some 6.
Proof. reflexivity. Qed.

(** ** Estimating the wait *)

Lemma count_from_spec (q : list Node) (p count : Z) :
  count_from q p count = count + groups_upto q p.
Proof.
  unfold groups_upto. revert count. induction q as [|n q IH]; intros count; simpl.
  - lia.
  - rewrite IH, filter_cons. case_bool_decide; case_decide; try done; simpl; lia.
Qed.

Lemma groups_upto_nonneg (q : list Node) (p : Z) : 0 ≤ groups_upto q p.
Proof. unfold groups_upto. lia. Qed.

Lemma estimate_wait_time_no_fit (self : RestaurantWaitlist) (p : Z) :
  no_fit (tables self) p →
  estimate_wait_time self p
  = Some (Z.max 0 (groups_upto (head self) p * wait_time_per_table self)).
Proof.
  intros Hn. unfold estimate_wait_time.
  apply find_suitable_table_None in Hn. rewrite Hn. simpl.
  by rewrite count_from_spec, Z.add_0_l.
Qed.

Lemma estimate_wait_time_fit (self : RestaurantWaitlist) (p c free : Z) :
  best_fit (tables self) p c →
  tables self !! c = Some free →
  estimate_wait_time self p
  = Some (Z.max 0
            (if bool_decide (c = 0 ∨ free = 0)
             then groups_upto (head self) p * wait_time_per_table self
             else (groups_upto (head self) p - free) * wait_time_per_table self)).
Proof.
  intros Hb Hl. unfold estimate_wait_time.
  apply find_suitable_table_Some in Hb. rewrite Hb.
  rewrite count_from_spec, Z.add_0_l.
  case_bool_decide as Hc.
  - by rewrite bool_decide_eq_true_2 by (by left).
  - rewrite Hl. simpl. case_bool_decide as Hfree.
    + by rewrite bool_decide_eq_true_2 by (by right).
    + by rewrite bool_decide_eq_false_2 by (intros [?|?]; done).
Qed.

(** The estimate is computed, and is never negative, in every state. *)
Lemma estimate_wait_time_nonneg (self : RestaurantWaitlist) (p : Z) :
  ∃ t, estimate_wait_time self p = Some t ∧ 0 ≤ t.
Proof.
  destruct (best_fit_or_no_fit (tables self) p) as [[c Hb]|Hn].
  - destruct (best_fit_lookup _ _ _ Hb) as [free Hl].
    rewrite (estimate_wait_time_fit _ _ _ _ Hb Hl). eexists. split; [done|lia].
  - rewrite (estimate_wait_time_no_fit _ _ Hn). eexists. split; [done|lia].
Qed.

(** C6: in a state of the data model (sizes positive, turnover not
    negative), with [count] the number of queued entries of party size at
    most [p] and [c] the smallest configured size of at least [p]:
    [estimate_wait_time] returns [count * wait_time_per_table] when [c] does
    not exist or has free count 0, and otherwise the larger of 0 and
    [(count - free count of c) * wait_time_per_table]; the result is never
    negative, and the call leaves the state as it was. *)
Theorem estimate_wait_time_spec (self : RestaurantWaitlist) (p : Z) :
  positive_sizes (tables self) →
  0 ≤ wait_time_per_table self →
  ∃ t,
    estimate_wait_time self p = Some t
    ∧ 0 ≤ t
    ∧ step (EstimateWaitTime p) self = Some self
    ∧ (no_fit (tables self) p
       ∨ (∃ c, best_fit (tables self) p c ∧ tables self !! c = Some 0) →
       t = groups_upto (head self) p * wait_time_per_table self)
    ∧ (∀ c free,
         best_fit (tables self) p c →
         tables self !! c = Some free →
         free ≠ 0 →
         t = Z.max 0 ((groups_upto (head self) p - free) * wait_time_per_table self)).
Proof.
  intros Hpos Hw.
  pose proof (groups_upto_nonneg (head self) p) as Hcount.
  destruct (estimate_wait_time_nonneg self p) as (t & Ht & Ht0).
  exists t. split; [done|]. split; [done|].
  split; [by simpl; rewrite Ht|].
  split.
  - intros [Hn|(c & Hb & Hl)].
    + rewrite (estimate_wait_time_no_fit _ _ Hn) in Ht. injection Ht as <-. nia.
    + rewrite (estimate_wait_time_fit _ _ _ _ Hb Hl) in Ht.
      rewrite bool_decide_eq_true_2 in Ht by (by right). injection Ht as <-. nia.
  - intros c free Hb Hl Hfree.
    rewrite (estimate_wait_time_fit _ _ _ _ Hb Hl) in Ht.
    rewrite bool_decide_eq_false_2 in Ht; [by injection Ht as <-|].
    intros [->|?]; [|done]. destruct Hb as (Hin & _). specialize (Hpos 0 Hin). lia.
Qed.

Lemma estimate_wait_time_spec_witness :
  let self := add_clients __init__
                [mkNode "A" 2 "19:00"; mkNode "B" 4 "19:05"; mkNode "C" 6 "19:10";
                 mkNode "D" 4 "19:15"; mkNode "E" 2 "19:20"] in
  ∃ t,
    estimate_wait_time self 3 = Some t
    ∧ 0 ≤ t
    ∧ step (EstimateWaitTime 3) self = Some self
    ∧ (no_fit (tables self) 3
       ∨ (∃ c, best_fit (tables self) 3 c ∧ tables self !! c = Some 0) →
       t = groups_upto (head self) 3 * wait_time_per_table self)
    ∧ (∀ c free,
         best_fit (tables self) 3 c →
         tables self !! c = Some free →
         free ≠ 0 →
         t = Z.max 0 ((groups_upto (head self) 3 - free) * wait_time_per_table self)).
Proof.
  intros self. apply (estimate_wait_time_spec self 3).
  - exact init_positive_sizes.
  - simpl. lia.
Defined.

Example scenario_5 :
  estimate_wait_time
    (add_clients __init__
       [mkNode "A" 2 "19:00"; mkNode "B" 4 "19:05"; mkNode "C" 2 "19:10"]) 4
  = Some 0.
Proof. vm_compute. reflexivity. Qed.

Example estimate_with_no_free_table :
  estimate_wait_time
    (add_clients (set_tables __init__ {[2 := 0; 4 := 0; 6 := 0]})
       [mkNode "A" 2 "19:00"; mkNode "B" 4 "19:05"; mkNode "C" 2 "19:10"]) 2
  = Some 60.
Proof. vm_compute. reflexivity. Qed.

(** ** The inventory over runs of the engine *)

Lemma step_total (o : op) (self : RestaurantWaitlist) :
  ∃ self', step o self = Some self'.
Proof.
  destruct o; simpl; eauto.
  - destruct (call_next_table_total self) as (r & self' & ->). simpl. eauto.
  - destruct (estimate_wait_time_nonneg self party_size0) as (t & -> & _). simpl. eauto.
Qed.

(** What one call does to the inventory. *)
Lemma step_tables (o : op) (self self' : RestaurantWaitlist) :
  step o self = Some self' →
  tables self' = tables self
  ∨ (o = CallNextTable
     ∧ ∃ c free, tables self !! c = Some free ∧ 0 < free
                 ∧ tables self' = <[c := free - 1]> (tables self))
  ∨ (∃ c free, o = FreeTable c ∧ tables self !! c = Some free
               ∧ tables self' = <[c := free + 1]> (tables self)).
Proof.
  destruct o as [n p t| |n|p| |c]; simpl.
  - intros [= <-]. left. by rewrite add_client_spec.
  - unfold call_next_table. destruct (head self) as [|current next]; simpl.
    { intros [= <-]. by left. }
    destruct (_find_suitable_table self (party_size current)) as [c|]; simpl;
      [|intros [= <-]; by left].
    case_bool_decide; simpl; [intros [= <-]; by left|].
    destruct (tables self !! c) as [free|] eqn:Hl; simpl; [|done].
    case_bool_decide; simpl; intros [= <-]; [|by left].
    right. left. split; [done|]. by exists c, free.
  - intros [= <-]. left. unfold cancel_reservation.
    destruct (head self) as [|first next]; [done|].
    case_bool_decide; [done|]. by destruct (unlink n next).
  - destruct (estimate_wait_time self p); simpl; [|done]. intros [= <-]. by left.
  - intros [= <-]. by left.
  - intros [= <-]. unfold free_table. destruct (tables self !! c) as [free|] eqn:Hl; simpl.
    + right. right. by exists c, free.
    + by left.
Qed.

Lemma step_counts_nonneg (o : op) (self self' : RestaurantWaitlist) :
  step o self = Some self' →
  counts_nonneg (tables self) → counts_nonneg (tables self').
Proof.
  intros Hstep Hnn.
  destruct (step_tables _ _ _ Hstep)
    as [->|[(_ & c & free & Hl & Hfree & ->)|(c & free & _ & Hl & ->)]]; [done| |].
  - intros c' n Hc'. apply lookup_insert_Some in Hc' as [[_ <-]|[_ Hc']]; [lia|by eapply Hnn].
  - intros c' n Hc'. apply lookup_insert_Some in Hc' as [[_ <-]|[_ Hc']]; [|by eapply Hnn].
    specialize (Hnn c free Hl). lia.
Qed.

Lemma step_dom (o : op) (self self' : RestaurantWaitlist) :
  step o self = Some self' → dom (tables self') = dom (tables self).
Proof.
  intros Hstep.
  destruct (step_tables _ _ _ Hstep)
    as [->|[(_ & c & free & Hl & _ & ->)|(c & free & _ & Hl & ->)]]; [done| |];
    rewrite dom_insert_L; pose proof (elem_of_dom_2 _ _ _ Hl) as Hin;
    apply subseteq_union_1_L; by apply singleton_subseteq_l.
Qed.

Lemma run_invariant (P : RestaurantWaitlist → Prop) (ops : list op) (self : RestaurantWaitlist) :
  (∀ o s s', step o s = Some s' → P s → P s') →
  P self →
  ∃ self', run ops self = Some self' ∧ P self'.
Proof.
  intros Hstep. revert self. induction ops as [|o ops IH]; intros self HP; simpl; [by eauto|].
  destruct (step_total o self) as (self1 & Hs). rewrite Hs. simpl.
  apply IH. by eapply Hstep.
Qed.

(** C5: every run of engine calls from the constructed state ends in a
    state in which every free count is at least 0; and one call either
    leaves the inventory as it was, or is a successful [call_next_table]
    that lowers one positive count by 1, or is a [free_table] that raises
    one count by 1. *)
Theorem inventory_never_negative (ops : list op) :
  ∃ self,
    run ops __init__ = Some self
    ∧ counts_nonneg (tables self)
    ∧ ∀ o self',
        step o self = Some self' →
        counts_nonneg (tables self')
        ∧ (tables self' = tables self
           ∨ (o = CallNextTable
              ∧ ∃ c free, tables self !! c = Some free ∧ 0 < free
                          ∧ tables self' = <[c := free - 1]> (tables self))
           ∨ (∃ c free, o = FreeTable c ∧ tables self !! c = Some free
                        ∧ tables self' = <[c := free + 1]> (tables self))).
Proof.
  destruct (run_invariant (λ s, counts_nonneg (tables s)) ops __init__)
    as (self & Hrun & Hnn).
  - intros o s s'. apply step_counts_nonneg.
  - exact init_counts_nonneg.
  - exists self. split; [done|]. split; [done|].
    intros o self' Hstep. split; [by eapply step_counts_nonneg|by apply step_tables].
Qed.

Lemma run_reachable (P : RestaurantWaitlist → Prop) (self : RestaurantWaitlist) :
  (∀ o s s', step o s = Some s' → P s → P s') →
  P __init__ →
  reachable self → P self.
Proof.
  intros Hstep Hinit [ops Hrun].
  destruct (run_invariant P ops __init__ Hstep Hinit) as (self' & Hrun' & HP).
  congruence.
Qed.

Lemma step_wait_time (o : op) (self self' : RestaurantWaitlist) :
  step o self = Some self' → wait_time_per_table self' = wait_time_per_table self.
Proof.
  destruct o as [n p t| |n|p| |c]; simpl.
  - intros [= <-]. by rewrite add_client_spec.
  - unfold call_next_table. destruct (head self) as [|current next]; simpl.
    { by intros [= <-]. }
    destruct (_find_suitable_table self (party_size current)) as [c|]; simpl;
      [|by intros [= <-]].
    case_bool_decide; simpl; [by intros [= <-]|].
    destruct (tables self !! c) as [free|]; simpl; [|done].
    case_bool_decide; simpl; by intros [= <-].
  - intros [= <-]. unfold cancel_reservation.
    destruct (head self) as [|first next]; [done|].
    case_bool_decide; [done|]. by destruct (unlink n next).
  - destruct (estimate_wait_time self p); simpl; [|done]. by intros [= <-].
  - by intros [= <-].
  - intros [= <-]. unfold free_table. by destruct (tables self !! c).
Qed.

(** Every state the engine reaches is a state of the data model: the
    sizes are 2, 4 and 6, no count is negative and the turnover is 30. *)
Lemma reachable_data_model (self : RestaurantWaitlist) :
  reachable self →
  positive_sizes (tables self)
  ∧ counts_nonneg (tables self)
  ∧ wait_time_per_table self = 30.
Proof.
  apply (run_reachable
           (λ s, positive_sizes (tables s) ∧ counts_nonneg (tables s)
                 ∧ wait_time_per_table s = 30)).
  - intros o s s' Hstep (Hpos & Hnn & Hw). split; [|split].
    + intros c. rewrite (step_dom _ _ _ Hstep). apply Hpos.
    + by eapply step_counts_nonneg.
    + by rewrite (step_wait_time _ _ _ Hstep).
  - split; [exact init_positive_sizes|]. split; [exact init_counts_nonneg|done].
Qed.

(** ** Construction *)

(** C8, as the code has it: the constructor takes no capacity set; it
    always configures the sizes 2, 4 and 6, with 5, 3 and 2 free tables,
    and no run of engine calls adds or removes a size. *)
Theorem capacity_classes_fixed (ops : list op) :
  tables __init__ = {[ 2 := 5; 4 := 3; 6 := 2 ]}
  ∧ ∃ self, run ops __init__ = Some self ∧ dom (tables self) = {[2; 4; 6]}.
Proof.
  split; [done|].
  apply (run_invariant (λ s, dom (tables s) = {[2; 4; 6]})).
  - intros o s s' Hstep <-. by apply (step_dom o).
  - exact init_tables_dom.
Qed.

(** C8 as stated fails: the size set [{3}] is positive, and the constructed
    engine does not have it as its set of sizes. *)
Lemma any_capacity_set_counterexample :
  ¬ (∀ config : gmap Z Z,
       positive_sizes config →
       ∃ self, constructed self ∧ dom (tables self) = dom config).
Proof.
  intros H. destruct (H {[3 := 1]}) as (self & -> & Hdom).
  - intros c. rewrite dom_singleton_L. set_unfold. lia.
  - rewrite init_tables_dom, dom_singleton_L in Hdom.
    assert (2 ∈ ({[3]} : gset Z)) as Hin by (rewrite <- Hdom; set_solver).
    set_unfold. lia.
Qed.

(** ** The snapshot *)

Lemma get_waitlist_from_spec (q : list Node) (clients : list (gmap string value)) :
  get_waitlist_from q clients = clients ++ (row <$> q).
Proof.
  revert clients. induction q as [|n q IH]; intros clients; simpl.
  - by rewrite app_nil_r.
  - by rewrite IH, <- app_assoc.
Qed.

Lemma get_waitlist_spec (self : RestaurantWaitlist) :
  get_waitlist self = row <$> head self.
Proof. unfold get_waitlist. by rewrite get_waitlist_from_spec. Qed.

Section store_facts.
Implicit Types (h : Store.store) (q : list Node).

(** A Store.chain only depends on the objects it passes through. *)
Lemma chain_agree h h' current q :
  Store.chain h current q →
  (∀ l o, h !! l = Some o → h' !! l = Some o) →
  Store.chain h' current q.
Proof.
  intros Hc Hagree. induction Hc as [|p n next q Hp _ IH]; [constructor|].
  econstructor; [by apply Hagree|done].
Qed.

Lemma represents_agree h h' self w :
  Store.represents h self w →
  (∀ l o, h !! l = Some o → h' !! l = Some o) →
  Store.represents h' self w.
Proof.
  intros (hd & t & Hself & Ht & Hc) Hagree. exists hd, t.
  split; [by apply Hagree|]. split; [by apply Hagree|by eapply chain_agree].
Qed.

(** The loop, from any point of the walk: [h0] is the store at the call,
    [h] the store so far, [items] the dicts appended so far. *)
Lemma get_waitlist_loop_spec h0 current q :
  Store.chain h0 current q →
  ∀ fuel h clients items,
    (length q ≤ fuel)%nat →
    (∀ l o, h0 !! l = Some o → h !! l = Some o) →
    clients ∉ dom h0 →
    h !! clients = Some (Store.OList items) →
    ∃ h' new,
      Store.get_waitlist_loop fuel h clients current = Some h'
      ∧ h' !! clients = Some (Store.OList (items ++ new))
      ∧ Forall (λ d, d ∉ dom h) new
      ∧ NoDup new
      ∧ Forall2 (λ d n, h' !! d = Some (Store.ODict (row n))) new q
      ∧ (∀ l o, l ≠ clients → h !! l = Some o → h' !! l = Some o).
Proof.
  induction 1 as [|p n next q Hp Hc IH]; intros fuel h clients items Hfuel Hsub Hcl Hitems.
  - exists h, []. rewrite app_nil_r.
    split; [by destruct fuel|]. split; [done|]. split; [constructor|]. split; [constructor|].
    split; [constructor|done].
  - destruct fuel as [|fuel]; [simpl in Hfuel; lia|]. simpl in Hfuel.
    cbn [Store.get_waitlist_loop]. rewrite (Hsub _ _ Hp).
    set (d := fresh (dom h)).
    assert (d ∉ dom h) as Hd by apply is_fresh.
    assert (d ≠ clients) as Hdc.
    { intros ->. apply Hd. by apply elem_of_dom_2 in Hitems. }
    rewrite lookup_insert_ne by done. rewrite Hitems.
    set (h1 := <[d := Store.ODict _]> h).
    set (h2 := <[clients := Store.OList (items ++ [d])]> h1).
    assert (∀ l o, l ≠ clients → h !! l = Some o → h2 !! l = Some o) as Hframe.
    { intros l o Hl Hlo. unfold h2, h1.
      rewrite lookup_insert_ne by done. rewrite lookup_insert_ne; [done|].
      intros <-. apply Hd. by apply elem_of_dom_2 in Hlo. }
    destruct (IH fuel h2 clients (items ++ [d])) as (h' & new & Hrun & Hres & Hfresh & Hnd & Hrows & Hkeep).
    + lia.
    + intros l o Hlo. apply Hframe; [|by apply Hsub].
      intros ->. apply Hcl. by apply elem_of_dom_2 in Hlo.
    + done.
    + unfold h2. by rewrite lookup_insert_eq.
    + assert (dom h ⊆ dom h2) as Hdom.
      { unfold h2, h1. rewrite !dom_insert. set_solver. }
      assert (d ∈ dom h2) as Hd2.
      { unfold h2, h1. rewrite !dom_insert. set_solver. }
      exists h', (d :: new). split; [exact Hrun|].
      split; [by rewrite Hres, <- app_assoc|].
      split. { constructor; [done|]. eapply Forall_impl; [exact Hfresh|].
               intros l Hl Hin. apply Hl. by apply Hdom. }
      split. { constructor; [|done]. intros Hin.
               rewrite Forall_forall in Hfresh. by apply (Hfresh d Hin). }
      split.
      * constructor; [|done]. apply Hkeep; [done|].
        unfold h2, h1. rewrite lookup_insert_ne by done.
        rewrite lookup_insert_eq. by destruct n.
      * intros l o Hl Hlo. apply Hkeep; [done|]. by apply Hframe.
Qed.


End store_facts.


Example get_waitlist_two_rows :
  get_waitlist (add_clients __init__ [mkNode "Ana" 2 "19:00"; mkNode "Bob" 4 "19:05"])
  = [ {[ "name" := VStr "Ana"; "party_size" := VInt 2; "time" := VStr "19:00" ]};
      {[ "name" := VStr "Bob"; "party_size" := VInt 4; "time" := VStr "19:05" ]} ].
Proof. reflexivity. Qed.

(** * Further properties of the engine *)

(** ** Order of the queue over whole runs *)

Lemma unlink_sublist (name : string) (q q' : list Node) :
  unlink name q = Some q' → q' `sublist_of` q.
Proof.
  revert q'. induction q as [|n q IH]; intros q'; simpl; [done|].
  case_bool_decide.
  - intros [= <-]. by apply sublist_cons.
  - destruct (unlink name q) as [q''|]; simpl; [|done].
    intros [= <-]. apply sublist_skip. by apply IH.
Qed.

Lemma unlink_length (name : string) (q q' : list Node) :
  unlink name q = Some q' → length q = S (length q').
Proof.
  revert q'. induction q as [|n q IH]; intros q'; simpl; [done|].
  case_bool_decide.
  - by intros [= <-].
  - destruct (unlink name q) as [q''|]; simpl; [|done].
    intros [= <-]. simpl. by rewrite (IH q'').
Qed.

Lemma step_head_sublist (o : op) (self self' : RestaurantWaitlist) :
  step o self = Some self' →
  head self' `sublist_of` head self ++ added [o].
Proof.
  destruct o as [n p t| |n|p| |c]; simpl.
  - intros [= <-]. rewrite add_client_spec. reflexivity.
  - rewrite app_nil_r. unfold call_next_table.
    destruct (head self) as [|current next] eqn:Hh; simpl.
    { intros [= <-]. simpl; rewrite ?Hh; reflexivity. }
    destruct (_find_suitable_table self (party_size current)) as [c|]; simpl;
      [|intros [= <-]; simpl; rewrite ?Hh; reflexivity].
    case_bool_decide; simpl; [intros [= <-]; simpl; rewrite ?Hh; reflexivity|].
    destruct (tables self !! c) as [free|]; simpl; [|done].
    case_bool_decide; simpl; intros [= <-]; [|simpl; rewrite ?Hh; reflexivity].
    simpl. by apply sublist_cons.
  - rewrite app_nil_r. intros [= <-]. unfold cancel_reservation.
    destruct (head self) as [|first next] eqn:Hh; [simpl; rewrite ?Hh; reflexivity|].
    case_bool_decide; [simpl; by apply sublist_cons|].
    destruct (unlink n next) as [next'|] eqn:Hu; simpl; [|simpl; rewrite ?Hh; reflexivity].
    apply sublist_skip. by eapply unlink_sublist.
  - rewrite app_nil_r. destruct (estimate_wait_time self p); simpl; [|done].
    intros [= <-]. reflexivity.
  - rewrite app_nil_r. intros [= <-]. reflexivity.
  - rewrite app_nil_r. intros [= <-]. unfold free_table.
    destruct (tables self !! c); simpl; reflexivity.
Qed.

Lemma added_cons (o : op) (ops : list op) :
  added (o :: ops) = added [o] ++ added ops.
Proof. by destruct o. Qed.

Lemma run_head_sublist (ops : list op) (self self' : RestaurantWaitlist) :
  run ops self = Some self' →
  head self' `sublist_of` head self ++ added ops.
Proof.
  revert self. induction ops as [|o ops IH]; intros self.
  - simpl. intros [= <-]. rewrite app_nil_r. reflexivity.
  - rewrite added_cons, app_assoc. cbn [run].
    destruct (step o self) as [self1|] eqn:Hs; [|done].
    change (run ops self1 = Some self' →
            head self' `sublist_of` (head self ++ added [o]) ++ added ops).
    intros Hrun.
    etrans; [by apply IH|]. apply sublist_app; [|done].
    by apply step_head_sublist.
Qed.

(** X1: whatever calls are made on a constructed engine, in whatever
    order, the queue is a subsequence of the clients added, in the order of
    their [add_client] calls: no call reorders, duplicates or invents an
    entry. *)
Theorem queue_keeps_arrival_order (ops : list op) :
  ∃ self, run ops __init__ = Some self ∧ head self `sublist_of` added ops.
Proof.
  destruct (run_invariant (λ _, True) ops __init__) as (self & Hrun & _); [done..|].
  exists self. split; [done|].
  by apply (run_head_sublist ops __init__).
Qed.

(** ** A head that no table size seats *)

Lemma no_fit_dom (t t' : gmap Z Z) (p : Z) :
  dom t' = dom t → no_fit t p → no_fit t' p.
Proof. intros Hdom Hn c Hc. apply Hn. by rewrite <- Hdom. Qed.

Lemma best_fit_dom (t t' : gmap Z Z) (p c : Z) :
  dom t' = dom t → best_fit t p c → best_fit t' p c.
Proof.
  intros Hdom (Hin & Hpc & Hmin). split; [by rewrite Hdom|]. split; [done|].
  intros c' Hc'. apply Hmin. by rewrite <- Hdom.
Qed.

Lemma step_keeps_blocked_head (o : op) (self self' : RestaurantWaitlist)
    (current : Node) (next : list Node) :
  no_fit (tables self) (party_size current) →
  head self = current :: next →
  o ≠ CancelReservation (client_name current) →
  step o self = Some self' →
  ∃ next', head self' = current :: next'.
Proof.
  intros Hn Hh Ho. destruct o as [n p t| |n|p| |c]; simpl.
  - intros [= <-]. rewrite add_client_spec. simpl. rewrite Hh. simpl. eauto.
  - rewrite (call_next_table_no_fit _ _ _ Hh Hn). simpl. intros [= <-]. eauto.
  - intros [= <-]. unfold cancel_reservation. rewrite Hh.
    rewrite bool_decide_eq_false_2 by congruence.
    destruct (unlink n next); simpl; eauto.
  - destruct (estimate_wait_time self p); simpl; [|done]. intros [= <-]. eauto.
  - intros [= <-]. eauto.
  - intros [= <-]. unfold free_table. destruct (tables self !! c); simpl; eauto.
Qed.

Lemma dom_insert_present (t : gmap Z Z) (c n m : Z) :
  t !! c = Some n → dom (<[c := m]> t) = dom t.
Proof.
  intros Hl. rewrite dom_insert_L. apply subseteq_union_1_L, singleton_subseteq_l.
  by apply elem_of_dom_2 in Hl.
Qed.

(** X2: when no configured size seats the party at the head of the queue,
    that entry stays at the head through every run of calls that does not
    cancel its name: [call_next_table] keeps failing for it whatever tables
    are freed, and nobody behind it is served. *)
Theorem unseatable_head_blocks_queue
    (self : RestaurantWaitlist) (current : Node) (next : list Node) (ops : list op) :
  no_fit (tables self) (party_size current) →
  head self = current :: next →
  Forall (λ o, o ≠ CancelReservation (client_name current)) ops →
  ∃ self' next',
    run ops self = Some self'
    ∧ head self' = current :: next'
    ∧ call_next_table self'
      = Some ((false, msg_no_tables (client_name current) (party_size current)), self').
Proof.
  intros Hn Hh Hops. revert self next Hn Hh.
  induction Hops as [|o ops Ho _ IH]; intros self next Hn Hh.
  - exists self, next. split; [done|]. split; [done|].
    by apply (call_next_table_no_fit _ _ next).
  - cbn [run]. destruct (step_total o self) as (self1 & Hs). rewrite Hs.
    destruct (step_keeps_blocked_head _ _ _ _ _ Hn Hh Ho Hs) as (next1 & Hh1).
    apply (IH self1 next1); [|done].
    eapply no_fit_dom; [|done]. by apply (step_dom o).
Qed.

Lemma unseatable_head_blocks_queue_witness :
  let self := add_clients __init__ [mkNode "Grande" 8 "19:00"; mkNode "Ana" 2 "19:05"] in
  let ops := [FreeTable 6; CallNextTable; CancelReservation "Ana";
              AddClient "Eva" 2 "19:10"; CallNextTable] in
  ∃ self' next',
    run ops self = Some self'
    ∧ head self' = mkNode "Grande" 8 "19:00" :: next'
    ∧ call_next_table self' = Some ((false, msg_no_tables "Grande" 8), self').
Proof.
  intros self ops.
  apply (unseatable_head_blocks_queue self (mkNode "Grande" 8 "19:00")
           [mkNode "Ana" 2 "19:05"] ops).
  - apply find_suitable_table_None. vm_compute. reflexivity.
  - reflexivity.
  - repeat constructor; discriminate.
Defined.

(** ** Seating and freeing undo each other *)

(** X3: after a successful [call_next_table], [free_table] for the size it
    assigned returns [True] and puts the inventory back exactly as it was
    before the call. *)
Theorem free_table_undoes_seating
    (self self' : RestaurantWaitlist) (msg : string) :
  call_next_table self = Some ((true, msg), self') →
  ∃ current c,
    head self = current :: head self'
    ∧ msg = msg_calling (client_name current) c
    ∧ free_table self' c = (true, set_tables self' (tables self)).
Proof.
  unfold call_next_table. destruct (head self) as [|current next]; [done|].
  destruct (_find_suitable_table self (party_size current)) as [c|]; [|done].
  case_bool_decide; [done|].
  destruct (tables self !! c) as [free|] eqn:Hl; [|done]. simpl.
  case_bool_decide; [|done]. intros [= <- <-].
  exists current, c. split; [done|]. split; [done|].
  unfold free_table. simpl. rewrite lookup_insert_eq. unfold set_tables. simpl.
  rewrite insert_insert_eq. replace (free - 1 + 1) with free by lia.
  by rewrite insert_id.
Qed.

Lemma free_table_undoes_seating_witness :
  let self := add_client __init__ "Ana" 3 "19:00" in
  ∃ current c,
    head self = current :: head (set_tables __init__ (<[4 := 2]> (tables __init__)))
    ∧ msg_calling "Ana" 4 = msg_calling (client_name current) c
    ∧ free_table (set_tables __init__ (<[4 := 2]> (tables __init__))) c
      = (true, set_tables (set_tables __init__ (<[4 := 2]> (tables __init__)))
                 (tables self)).
Proof.
  intros self.
  apply (free_table_undoes_seating self
           (set_tables __init__ (<[4 := 2]> (tables __init__))) (msg_calling "Ana" 4)).
  vm_compute. reflexivity.
Defined.

(** X6: when the head waits only because the smallest size that seats its
    party has no free table, [call_next_table] fails; one [free_table] for
    that size later it succeeds for the same head with that size, and the
    inventory is again what it was. *)
Theorem free_table_unblocks_head
    (self : RestaurantWaitlist) (current : Node) (next : list Node) (c : Z) :
  head self = current :: next →
  best_fit (tables self) (party_size current) c →
  c ≠ 0 →
  tables self !! c = Some 0 →
  call_next_table self
  = Some ((false, msg_no_tables (client_name current) (party_size current)), self)
  ∧ call_next_table (snd (free_table self c))
    = Some ((true, msg_calling (client_name current) c), set_head self next).
Proof.
  intros Hh Hb Hc Hl. split.
  - rewrite (call_next_table_fit _ _ _ _ _ Hh Hb Hl).
    rewrite bool_decide_eq_false_2; [done|]. intros [_ ?]. lia.
  - unfold free_table. rewrite Hl. simpl.
    rewrite (call_next_table_fit _ current next c (0 + 1)); simpl.
    + rewrite bool_decide_eq_true_2 by (split; [done|lia]).
      do 2 f_equal. unfold set_head. f_equal.
      rewrite insert_insert_eq. replace (0 + 1 - 1) with 0 by lia.
      by rewrite insert_id.
    + done.
    + eapply best_fit_dom; [|done]. by eapply dom_insert_present.
    + by rewrite lookup_insert_eq.
Qed.

Lemma free_table_unblocks_head_witness :
  let self := add_client (set_tables __init__ {[2 := 1; 4 := 0; 6 := 2]}) "Ana" 3 "19:00" in
  call_next_table self = Some ((false, msg_no_tables "Ana" 3), self)
  ∧ call_next_table (snd (free_table self 4))
    = Some ((true, msg_calling "Ana" 4), set_head self []).
Proof.
  intros self. apply (free_table_unblocks_head self (mkNode "Ana" 3 "19:00") [] 4).
  - reflexivity.
  - apply find_suitable_table_Some. vm_compute. reflexivity.
  - lia.
  - vm_compute. reflexivity.
Defined.

(** ** Cancelling, once more *)

Lemma unlink_Some_iff (name : string) (q : list Node) :
  is_Some (unlink name q) ↔ ∃ n, n ∈ q ∧ client_name n = name.
Proof.
  destruct (first_occurrence name q) as [Hall|(pre & n & post & -> & Hpre & Hn)].
  - rewrite (unlink_absent _ _ Hall). split; [by intros [? ?]|].
    intros (n & Hin & Hn). rewrite Forall_forall in Hall. by destruct (Hall n Hin).
  - rewrite (unlink_found _ _ _ _ Hpre Hn). split; [|by eauto].
    intros _. exists n. split; [|done]. apply elem_of_app. right. by left.
Qed.

(** X5: [cancel_reservation] succeeds exactly when some queued entry has
    the name; a success makes the queue exactly one entry shorter, a failure
    leaves the state as it was, and the inventory and the turnover are never
    touched. *)
Theorem cancel_reservation_success_iff (self : RestaurantWaitlist) (name : string) :
  let '((ok, msg), self') := cancel_reservation self name in
  (ok = true ↔ ∃ n, n ∈ head self ∧ client_name n = name)
  ∧ (ok = true → length (head self) = S (length (head self'))
                 ∧ head self' `sublist_of` head self)
  ∧ (ok = false → self' = self)
  ∧ tables self' = tables self
  ∧ wait_time_per_table self' = wait_time_per_table self.
Proof.
  unfold cancel_reservation. destruct (head self) as [|first next] eqn:Hh.
  { split; [|done]. split; [done|].
    intros (n & Hin & _). by apply elem_of_nil in Hin. }
  case_bool_decide as Hfirst.
  { simpl. split; [|split; [|done]].
    - split; [|done]. intros _. exists first. split; [by left|done].
    - intros _. split; [done|]. by apply sublist_cons. }
  pose proof (unlink_Some_iff name next) as Hiff.
  destruct (unlink name next) as [next'|] eqn:Hu; simpl.
  - split; [|split; [|done]].
    + split; [|done]. intros _.
      destruct (proj1 Hiff) as (n & Hin & Hn); [by eauto|].
      exists n. split; [by right|done].
    + intros _. split.
      * by rewrite (unlink_length _ _ _ Hu).
      * apply sublist_skip. by eapply unlink_sublist.
  - rewrite Hh. split; [|done]. split; [done|].
    intros (n & Hin & Hn). apply elem_of_cons in Hin as [->|Hin]; [done|].
    destruct (proj2 Hiff) as [? ?]; [by eauto|done].
Qed.

(** X4: a client whose name nobody in the queue has, added and then
    cancelled, leaves the engine exactly in the state before the two calls;
    the cancellation reports success. *)
Theorem cancel_undoes_add (self : RestaurantWaitlist)
    (name : string) (size : Z) (time : string) :
  Forall (λ m, client_name m ≠ name) (head self) →
  cancel_reservation (add_client self name size time) name
  = ((true, msg_cancelled name), self).
Proof.
  intros Hall. rewrite add_client_spec. unfold cancel_reservation. simpl.
  destruct self as [q t w]. simpl in *. unfold set_head. simpl.
  destruct Hall as [|first next Hfirst Hnext]; simpl.
  - by rewrite bool_decide_eq_true_2.
  - rewrite bool_decide_eq_false_2 by done.
    rewrite (unlink_found name next [] (mkNode name size time)) by done.
    by rewrite app_nil_r.
Qed.

Lemma cancel_undoes_add_witness :
  let self := add_clients __init__ [mkNode "A" 2 "19:00"; mkNode "B" 4 "19:05"] in
  cancel_reservation (add_client self "C" 6 "19:10") "C"
  = ((true, msg_cancelled "C"), self).
Proof.
  intros self. apply (cancel_undoes_add self "C" 6 "19:10").
  repeat constructor; simpl; discriminate.
Defined.

(** ** The table size chosen for a party *)

(** X7: [_find_suitable_table] is monotone in the party size: when a size
    [c'] is found for [p'], a size is found for every smaller [p] too, and
    it is at least [p] and at most [c']; a size that comes out of the search
    is found again when searched for itself. *)
Theorem find_suitable_table_monotone (self : RestaurantWaitlist) (p p' c' : Z) :
  p ≤ p' →
  _find_suitable_table self p' = Some c' →
  ∃ c, _find_suitable_table self p = Some c
       ∧ p ≤ c ∧ c ≤ c'
       ∧ _find_suitable_table self c = Some c.
Proof.
  intros Hp Hf. apply find_suitable_table_Some in Hf as (Hin' & Hpc' & Hmin').
  destruct (best_fit_or_no_fit (tables self) p) as [[c Hb]|Hn].
  - exists c. pose proof Hb as (Hin & Hpc & Hmin).
    split; [by apply find_suitable_table_Some|]. split; [done|].
    split; [apply Hmin; [done|lia]|].
    apply find_suitable_table_Some. split; [done|]. split; [lia|]. by intros c'' _ ?.
  - specialize (Hn c' Hin'). lia.
Qed.

Lemma find_suitable_table_monotone_witness :
  ∃ c, _find_suitable_table __init__ (-1) = Some c
       ∧ -1 ≤ c ∧ c ≤ 4
       ∧ _find_suitable_table __init__ c = Some c.
Proof.
  apply (find_suitable_table_monotone __init__ (-1) 3 4).
  - lia.
  - vm_compute. reflexivity.
Defined.

Lemma reachable_sizes (self : RestaurantWaitlist) :
  reachable self → dom (tables self) = {[2; 4; 6]}.
Proof.
  apply (run_reachable (λ s, dom (tables s) = {[2; 4; 6]})).
  - intros o s s' Hstep <-. by apply (step_dom o).
  - exact init_tables_dom.
Qed.

(** X11: in every state the engine reaches, the size chosen for a party of
    [p] is 2 for [p <= 2] (zero and negative sizes included), 4 for
    [2 < p <= 4], 6 for [4 < p <= 6], and there is none for [p > 6]. *)
Theorem reachable_table_sizes (self : RestaurantWaitlist) (p : Z) :
  reachable self →
  _find_suitable_table self p
  = if decide (p ≤ 2) then Some 2
    else if decide (p ≤ 4) then Some 4
    else if decide (p ≤ 6) then Some 6
    else None.
Proof.
  intros Hdom%reachable_sizes.
  repeat case_decide;
    [apply find_suitable_table_Some; unfold best_fit..
    |apply find_suitable_table_None; unfold no_fit];
    rewrite Hdom; set_unfold; repeat split; try done; try lia; intros; lia.
Qed.

Lemma reachable_table_sizes_witness :
  let self := set_tables (add_client __init__ "Ana" 2 "19:00")
                (<[2 := 5 + 1]> (tables __init__)) in
  _find_suitable_table self 5 = Some 6.
Proof.
  intros self. apply (reachable_table_sizes self 5).
  exists [AddClient "Ana" 2 "19:00"; FreeTable 2]. vm_compute. reflexivity.
Defined.

(** X12: no call raises [KeyError], in any state and with any inventory:
    [call_next_table] and [estimate_wait_time] subscript [self.tables] only
    with a size taken from its keys, so both return, and so does every run
    of calls. *)
Theorem subscripts_never_raise (self : RestaurantWaitlist) (p : Z) (ops : list op) :
  is_Some (call_next_table self)
  ∧ is_Some (estimate_wait_time self p)
  ∧ is_Some (run ops self).
Proof.
  split; [|split].
  - destruct (call_next_table_total self) as (r & self' & ->). eauto.
  - destruct (estimate_wait_time_nonneg self p) as (t & -> & _). eauto.
  - destruct (run_invariant (λ _, True) ops self) as (self' & -> & _); eauto.
Qed.

(** ** How the estimate moves *)

Lemma groups_upto_app (q q' : list Node) (p : Z) :
  groups_upto (q ++ q') p = groups_upto q p + groups_upto q' p.
Proof. unfold groups_upto. rewrite filter_app, length_app. lia. Qed.

Lemma groups_upto_le_length (q : list Node) (p : Z) :
  groups_upto q p ≤ Z.of_nat (length q).
Proof.
  unfold groups_upto. pose proof (length_filter (λ n, party_size n ≤ p) q). lia.
Qed.

(** The estimate as one formula over the whole state. *)
Lemma estimate_wait_time_formula (self : RestaurantWaitlist) (p : Z) :
  ∃ k, estimate_wait_time self p
       = Some (Z.max 0 ((groups_upto (head self) p - k) * wait_time_per_table self))
       ∧ (no_fit (tables self) p ∧ k = 0
          ∨ ∃ c free, best_fit (tables self) p c ∧ tables self !! c = Some free
                      ∧ k = if bool_decide (c = 0 ∨ free = 0) then 0 else free).
Proof.
  destruct (best_fit_or_no_fit (tables self) p) as [[c Hb]|Hn].
  - destruct (best_fit_lookup _ _ _ Hb) as [free Hl].
    exists (if bool_decide (c = 0 ∨ free = 0) then 0 else free).
    split; [|right; by exists c, free].
    rewrite (estimate_wait_time_fit _ _ _ _ Hb Hl).
    case_bool_decide; [|done]. by rewrite Z.sub_0_r.
  - exists 0. split; [|by left].
    rewrite (estimate_wait_time_no_fit _ _ Hn). by rewrite Z.sub_0_r.
Qed.

(** X8: one more client in the queue never lowers an estimate and raises
    it by at most one turnover; the estimate for parties smaller than the
    newcomer does not move at all. *)
Theorem estimate_after_add_client (self : RestaurantWaitlist)
    (name : string) (size : Z) (time : string) (p : Z) :
  0 ≤ wait_time_per_table self →
  ∃ t t',
    estimate_wait_time self p = Some t
    ∧ estimate_wait_time (add_client self name size time) p = Some t'
    ∧ t ≤ t' ≤ t + wait_time_per_table self
    ∧ (p < size → t' = t).
Proof.
  intros Hw. rewrite add_client_spec.
  set (self' := set_head self (head self ++ [mkNode name size time])).
  assert (groups_upto (head self') p
          = groups_upto (head self) p + (if bool_decide (size ≤ p) then 1 else 0)) as Hg.
  { unfold self'. simpl. rewrite groups_upto_app. f_equal.
    unfold groups_upto. rewrite filter_cons. simpl.
    case_decide; case_bool_decide; done. }
  destruct (best_fit_or_no_fit (tables self) p) as [[c Hb]|Hn].
  - destruct (best_fit_lookup _ _ _ Hb) as [free Hl].
    rewrite (estimate_wait_time_fit self _ _ _ Hb Hl).
    rewrite (estimate_wait_time_fit self' p c free Hb Hl).
    rewrite Hg. change (wait_time_per_table self') with (wait_time_per_table self).
    eexists _, _. split; [done|]. split; [done|].
    repeat case_bool_decide; split; nia.
  - rewrite (estimate_wait_time_no_fit self _ Hn).
    rewrite (estimate_wait_time_no_fit self' p Hn).
    rewrite Hg. change (wait_time_per_table self') with (wait_time_per_table self).
    eexists _, _. split; [done|]. split; [done|].
    repeat case_bool_decide; split; nia.
Qed.

Lemma estimate_after_add_client_witness :
  ∃ t t',
    estimate_wait_time __init__ 2 = Some t
    ∧ estimate_wait_time (add_client __init__ "Ana" 2 "19:00") 2 = Some t'
    ∧ t ≤ t' ≤ t + wait_time_per_table __init__
    ∧ (2 < 2 → t' = t).
Proof. apply (estimate_after_add_client __init__ "Ana" 2 "19:00" 2). simpl. lia. Defined.

(** X9: freeing a table, of whatever size, never raises an estimate. *)
Theorem estimate_after_free_table (self : RestaurantWaitlist) (c p : Z) :
  0 ≤ wait_time_per_table self →
  ∃ t t',
    estimate_wait_time self p = Some t
    ∧ estimate_wait_time (snd (free_table self c)) p = Some t'
    ∧ t' ≤ t.
Proof.
  intros Hw. unfold free_table.
  destruct (tables self !! c) as [n|] eqn:Hc; simpl.
  2:{ destruct (estimate_wait_time_nonneg self p) as (t & Ht & _).
      exists t, t. by rewrite Ht. }
  set (self' := set_tables self (<[c := n + 1]> (tables self))).
  assert (dom (tables self') = dom (tables self)) as Hdom
    by (by eapply dom_insert_present).
  destruct (best_fit_or_no_fit (tables self) p) as [[cb Hb]|Hn].
  - destruct (best_fit_lookup _ _ _ Hb) as [free Hl].
    rewrite (estimate_wait_time_fit self _ _ _ Hb Hl).
    destruct (decide (cb = c)) as [->|Hne].
    + rewrite (estimate_wait_time_fit self' p c (n + 1));
        [|by eapply best_fit_dom|by apply lookup_insert_eq].
      assert (free = n) as -> by congruence.
      change (wait_time_per_table self') with (wait_time_per_table self).
      change (head self') with (head self).
      eexists _, _. split; [done|]. split; [done|].
      repeat case_bool_decide; nia.
    + rewrite (estimate_wait_time_fit self' p cb free);
        [|by eapply best_fit_dom|by simpl; rewrite lookup_insert_ne].
      eexists _, _. split; [done|]. split; [done|]. done.
  - rewrite (estimate_wait_time_no_fit self _ Hn).
    rewrite (estimate_wait_time_no_fit self' p); [|by eapply no_fit_dom].
    eexists _, _. split; [done|]. split; [done|]. done.
Qed.

Lemma estimate_after_free_table_witness :
  let self := add_clients (set_tables __init__ {[2 := 0; 4 := 3; 6 := 2]})
                [mkNode "A" 2 "19:00"; mkNode "B" 2 "19:05"] in
  ∃ t t',
    estimate_wait_time self 2 = Some t
    ∧ estimate_wait_time (snd (free_table self 2)) 2 = Some t'
    ∧ t' ≤ t.
Proof. intros self. apply (estimate_after_free_table self 2 2). simpl. lia. Defined.

(** X10: with counts that are not negative and a turnover that is not
    negative, the estimate is at most one turnover per queued group of at
    most [p] people, hence at most one per queued entry, and it is 0 when no
    such group waits. *)
Theorem estimate_upper_bound (self : RestaurantWaitlist) (p : Z) :
  counts_nonneg (tables self) →
  0 ≤ wait_time_per_table self →
  ∃ t,
    estimate_wait_time self p = Some t
    ∧ t ≤ groups_upto (head self) p * wait_time_per_table self
    ∧ t ≤ Z.of_nat (length (head self)) * wait_time_per_table self
    ∧ (groups_upto (head self) p = 0 → t = 0).
Proof.
  intros Hnn Hw.
  pose proof (groups_upto_nonneg (head self) p) as Hg0.
  pose proof (groups_upto_le_length (head self) p) as Hgl.
  destruct (estimate_wait_time_formula self p) as (k & -> & Hk).
  assert (0 ≤ k) as Hk0.
  { destruct Hk as [[_ ->]|(c & free & _ & Hl & ->)]; [done|].
    specialize (Hnn c free Hl). by case_bool_decide. }
  eexists. split; [done|]. split; [nia|]. split; [nia|]. intros ->. nia.
Qed.

Lemma estimate_upper_bound_witness :
  let self := add_clients __init__ [mkNode "A" 2 "19:00"; mkNode "B" 6 "19:05"] in
  ∃ t,
    estimate_wait_time self 4 = Some t
    ∧ t ≤ groups_upto (head self) 4 * wait_time_per_table self
    ∧ t ≤ Z.of_nat (length (head self)) * wait_time_per_table self
    ∧ (groups_upto (head self) 4 = 0 → t = 0).
Proof.
  intros self. apply (estimate_upper_bound self 4).
  - exact init_counts_nonneg.
  - simpl. lia.
Defined.

(** * The methods on the linked nodes implement the methods on the queue *)

Section linked_facts.

Implicit Types (h : Store.store) (q : list Node) (ls : list positive).

Lemma chain_at_chain h current ls q :
  Linked.chain_at h current ls q → Store.chain h current q.
Proof. induction 1; econstructor; eauto. Qed.

Lemma chain_chain_at h current q :
  Store.chain h current q → ∃ ls, Linked.chain_at h current ls q.
Proof.
  induction 1 as [|p n next q Hp _ [ls IH]].
  - exists []. constructor.
  - exists (p :: ls). by econstructor.
Qed.

Lemma chain_at_length h current ls q :
  Linked.chain_at h current ls q → length ls = length q.
Proof. induction 1; simpl; congruence. Qed.

Lemma chain_at_functional h current ls ls' q q' :
  Linked.chain_at h current ls q →
  Linked.chain_at h current ls' q' →
  ls = ls' ∧ q = q'.
Proof.
  intros Hc. revert ls' q'.
  induction Hc as [|p n next ls q Hp _ IH]; intros ls' q' Hc'.
  - by inversion Hc'.
  - inversion Hc' as [|p' n' next' ls1 q1 Hp' Hc1]; subst.
    rewrite Hp in Hp'. injection Hp' as Hn Hs Ht <-.
    destruct (IH _ _ Hc1) as [-> ->].
    split; [done|]. f_equal. destruct n, n'; simpl in *; congruence.
Qed.

Lemma chain_at_suffix h current ls q (l : positive) :
  Linked.chain_at h current ls q →
  l ∈ ls →
  ∃ ls' q', Linked.chain_at h (Some l) ls' q' ∧ (length ls' ≤ length ls)%nat.
Proof.
  induction 1 as [|p n next ls q Hp Hc IH]; intros Hin.
  - by apply elem_of_nil in Hin.
  - apply elem_of_cons in Hin as [->|Hin].
    + exists (p :: ls), (n :: q). split; [by econstructor|done].
    + destruct (IH Hin) as (ls' & q' & Hc' & Hlen).
      exists ls', q'. split; [done|]. simpl. lia.
Qed.

(** The list is not cyclic: no node is met twice. *)
Lemma chain_at_NoDup h current ls q :
  Linked.chain_at h current ls q → NoDup ls.
Proof.
  induction 1 as [|p n next ls q Hp Hc IH]; constructor; [|done].
  intros Hin.
  destruct (chain_at_suffix _ _ _ _ _ Hc Hin) as (ls' & q' & Hc' & Hlen).
  destruct (chain_at_functional _ _ _ _ _ _ Hc' (Linked.chain_at_cons _ _ _ _ _ _ Hp Hc))
    as [-> _].
  simpl in Hlen. lia.
Qed.

Lemma chain_at_frame h h' current ls q :
  Linked.chain_at h current ls q →
  (∀ l, l ∈ ls → h' !! l = h !! l) →
  Linked.chain_at h' current ls q.
Proof.
  induction 1 as [|p n next ls q Hp Hc IH]; intros Hsame; [constructor|].
  econstructor.
  - rewrite Hsame; [done|by left].
  - apply IH. intros l Hl. apply Hsame. by right.
Qed.

Lemma chain_at_node h current ls q (l : positive) :
  Linked.chain_at h current ls q →
  l ∈ ls →
  ∃ n s tm next, h !! l = Some (Store.ONode n s tm next).
Proof.
  induction 1 as [|p n next ls q Hp Hc IH]; intros Hin.
  - by apply elem_of_nil in Hin.
  - apply elem_of_cons in Hin as [->|Hin]; [by eauto|by apply IH].
Qed.

(** Writing an object that is not a node of the chain keeps the chain. *)
Lemma chain_at_insert_other h current ls q (l : positive) (o : Store.object) :
  Linked.chain_at h current ls q →
  l ∉ ls →
  Linked.chain_at (<[l := o]> h) current ls q.
Proof.
  intros Hc Hl. eapply chain_at_frame; [done|].
  intros l' Hl'. rewrite lookup_insert_ne; [done|]. by intros ->.
Qed.

Lemma chain_at_not_waitlist h current ls q (l : positive) hd t w :
  Linked.chain_at h current ls q →
  h !! l = Some (Store.OWaitlist hd t w) →
  l ∉ ls.
Proof.
  intros Hc Hl Hin. destruct (chain_at_node _ _ _ _ _ Hc Hin) as (? & ? & ? & ? & ?).
  congruence.
Qed.

Lemma chain_at_not_tables h current ls q (l : positive) counts :
  Linked.chain_at h current ls q →
  h !! l = Some (Store.OTables counts) →
  l ∉ ls.
Proof.
  intros Hc Hl Hin. destruct (chain_at_node _ _ _ _ _ Hc Hin) as (? & ? & ? & ? & ?).
  congruence.
Qed.

Lemma chain_at_in_dom h current ls q (l : positive) :
  Linked.chain_at h current ls q → l ∈ ls → l ∈ dom h.
Proof.
  intros Hc Hin. destruct (chain_at_node _ _ _ _ _ Hc Hin) as (? & ? & ? & ? & Hl).
  by apply elem_of_dom_2 in Hl.
Qed.

(** A queue in the store is no longer than the store is large, so fuel
    for every object of the store is fuel for every walk. *)
Lemma chain_at_size h current ls q :
  Linked.chain_at h current ls q → (length q ≤ size h)%nat.
Proof.
  intros Hc. rewrite <- (chain_at_length _ _ _ _ Hc).
  pose proof (chain_at_NoDup _ _ _ _ Hc) as Hnd.
  rewrite <- size_dom, <- (size_list_to_set (C := gset positive) ls) by done.
  apply subseteq_size. intros l Hl. apply elem_of_list_to_set in Hl.
  by eapply chain_at_in_dom.
Qed.

Lemma store_dom_insert_present h (l : positive) (o : Store.object) :
  l ∈ dom h → dom (<[l := o]> h) = dom h.
Proof.
  intros Hl. rewrite dom_insert_L. by apply subseteq_union_1_L, singleton_subseteq_l.
Qed.

(** ** [add_client] *)

Lemma walk_to_last_spec (fuel : nat) h (p : positive) ls q :
  Linked.chain_at h (Some p) ls q →
  (length q ≤ fuel)%nat →
  ∃ l n s tm,
    Linked.walk_to_last fuel h p = Some l
    ∧ last ls = Some l
    ∧ h !! l = Some (Store.ONode n s tm None).
Proof.
  revert p ls q. induction fuel as [|fuel IH]; intros p ls q Hc Hfuel.
  - inversion Hc; subst. simpl in Hfuel. lia.
  - inversion Hc as [|p0 n next ls' q' Hp Hc']; subst. simpl in Hfuel.
    destruct next as [p'|].
    + simpl. rewrite Hp.
      destruct (IH p' ls' q' Hc') as (l & n' & s & tm & Hw & Hlast & Hl); [lia|].
      exists l, n', s, tm. split; [done|]. split; [|done].
      inversion Hc'; subst. done.
    + inversion Hc'; subst. simpl. rewrite Hp. eauto 10.
Qed.

Lemma chain_at_link_last h current ls q (l new : positive)
    (n : string) (s : Z) (tm : string) (name : string) (size : Z) (time : string) :
  Linked.chain_at h current ls q →
  last ls = Some l →
  h !! l = Some (Store.ONode n s tm None) →
  new ∉ ls →
  h !! new = Some (Store.ONode name size time None) →
  Linked.chain_at (<[l := Store.ONode n s tm (Some new)]> h) current
    (ls ++ [new]) (q ++ [mkNode name size time]).
Proof.
  intros Hc. pose proof (chain_at_NoDup _ _ _ _ Hc) as Hnd. revert Hnd.
  induction Hc as [|p n0 next ls q Hp Hc IH]; intros Hnd Hlast Hl Hnew Hnewobj.
  - done.
  - apply NoDup_cons in Hnd as [Hp_notin Hnd].
    destruct ls as [|p' ls'].
    + inversion Hc; subst. simpl in Hlast. injection Hlast as <-.
      rewrite Hp in Hl. injection Hl as <- <- <-.
      simpl. econstructor; [by rewrite lookup_insert_eq|].
      apply (Linked.chain_at_cons _ new (mkNode name size time) None [] []);
        [|constructor].
      simpl. rewrite lookup_insert_ne; [done|]. intros ->. apply Hnew. by left.
    + assert (l ∈ p' :: ls') as Hlin.
      { apply last_Some in Hlast as [pre Hpre]. simpl in Hpre.
        destruct pre as [|x pre]; simpl in Hpre; [done|].
        injection Hpre as -> ->. apply elem_of_app. right. by left. }
      simpl. econstructor.
      * rewrite lookup_insert_ne; [done|]. by intros ->.
      * apply IH; [done|done|done| |done].
        intros Hin. apply Hnew. by right.
Qed.

(** [add_client] on the linked nodes: the fact behind the theorem that follows
    and behind the runs of calls further down. *)
Lemma linked_add_client_aux h (self : positive) (w : RestaurantWaitlist) (fuel : nat)
    (name : string) (size : Z) (time : string) :
  Store.represents h self w →
  (length (head w) ≤ fuel)%nat →
  ∃ h',
    Linked.add_client fuel self name size time h = Some h'
    ∧ Store.represents h' self (add_client w name size time)
    ∧ dom h' = {[fresh (dom h)]} ∪ dom h
    ∧ h' !! fresh (dom h) = Some (Store.ONode name size time None).
Proof.
  intros (hd & t & Hself & Ht & Hc) Hfuel.
  apply chain_chain_at in Hc as [ls Hc].
  set (new := fresh (dom h)).
  assert (new ∉ dom h) as Hnew by apply is_fresh.
  assert (new ≠ self) as Hns.
  { intros Heq. apply Hnew. rewrite Heq. by eapply elem_of_dom_2. }
  assert (new ≠ t) as Hnt.
  { intros Heq. apply Hnew. rewrite Heq. by eapply elem_of_dom_2. }
  assert (self ≠ t) as Hst by (intros Heq; rewrite Heq in Hself; congruence).
  assert (new ∉ ls) as Hnls.
  { intros Hin. apply Hnew. by eapply chain_at_in_dom. }
  set (h1 := <[new := Store.ONode name size time None]> h).
  assert (Linked.chain_at h1 hd ls (head w)) as Hc1
    by (by apply chain_at_insert_other).
  unfold Linked.add_client. rewrite Hself. fold new. fold h1.
  rewrite add_client_spec. unfold Store.represents. simpl.
  destruct hd as [first|].
  - destruct (walk_to_last_spec fuel h1 first ls (head w) Hc1 Hfuel)
      as (l & n & s & tm & Hwalk & Hlast & Hl).
    rewrite Hwalk. simpl. rewrite Hl.
    assert (l ∈ ls) as Hlin.
    { apply last_Some in Hlast as [pre ->]. apply elem_of_app. right. by left. }
    assert (l ≠ self) as Hls.
    { intros ->. unfold h1 in Hl. rewrite lookup_insert_ne in Hl by done. congruence. }
    assert (l ≠ t) as Hlt.
    { intros ->. unfold h1 in Hl. rewrite lookup_insert_ne in Hl by done. congruence. }
    assert (l ∈ dom h) as Hldom by (by eapply chain_at_in_dom).
    eexists. split; [done|]. split; [|split].
    + exists (Some first), t.
      split; [by unfold h1; rewrite !lookup_insert_ne|].
      split; [by unfold h1; rewrite !lookup_insert_ne|].
      eapply chain_at_chain. apply chain_at_link_last; try done.
      unfold h1. by rewrite lookup_insert_eq.
    + rewrite store_dom_insert_present; [by unfold h1; rewrite dom_insert_L|].
      unfold h1. rewrite dom_insert_L. apply elem_of_union. by right.
    + rewrite lookup_insert_ne; [by unfold h1; rewrite lookup_insert_eq|].
      intros ->. done.
  - assert (head w = []) as -> by (by inversion Hc1). simpl.
    eexists. split; [done|]. split; [|split].
    + exists (Some new), t.
      split; [by rewrite lookup_insert_eq|].
      split; [by unfold h1; rewrite !lookup_insert_ne|].
      apply (Store.chain_cons _ new (mkNode name size time) None []); [|constructor].
      simpl. rewrite lookup_insert_ne by done. unfold h1. by rewrite lookup_insert_eq.
    + rewrite store_dom_insert_present; [by unfold h1; rewrite dom_insert_L|].
      unfold h1. rewrite dom_insert_L. apply elem_of_union. right.
      by eapply elem_of_dom_2.
    + rewrite lookup_insert_ne by done. unfold h1. by rewrite lookup_insert_eq.
Qed.

(** X13: on a store holding the engine in state [w], with fuel for every
    node, the linked-list [add_client] returns; it allocates exactly one
    object, the new node, links it behind the last node (or makes it the
    head of an empty list), and leaves the engine in the state [add_client]
    gives on the queue: [w] with the new entry appended. *)
Theorem linked_add_client h (self : positive) (w : RestaurantWaitlist) (fuel : nat)
    (name : string) (size : Z) (time : string) :
  Store.represents h self w →
  (length (head w) ≤ fuel)%nat →
  ∃ h',
    Linked.add_client fuel self name size time h = Some h'
    ∧ Store.represents h' self (add_client w name size time)
    ∧ dom h' = {[fresh (dom h)]} ∪ dom h
    ∧ h' !! fresh (dom h) = Some (Store.ONode name size time None).
Proof. exact (linked_add_client_aux h self w fuel name size time). Qed.

(** ** [call_next_table] *)

(** [call_next_table] on the linked nodes: the fact behind the theorem that follows
    and behind the runs of calls further down. *)
Lemma linked_call_next_table_aux h (self : positive) (w : RestaurantWaitlist) :
  Store.represents h self w →
  ∃ r w' h',
    call_next_table w = Some (r, w')
    ∧ Linked.call_next_table self h = Some (r, h')
    ∧ Store.represents h' self w'
    ∧ dom h' = dom h
    ∧ (r.1 = false → h' = h).
Proof.
  intros Hrep. pose proof Hrep as (hd & t & Hself & Ht & Hc).
  apply chain_chain_at in Hc as [ls Hc].
  unfold call_next_table, Linked.call_next_table, _find_suitable_table. rewrite Hself.
  inversion Hc as [Hhd Hls Hq|current n next ls' q' Hp Hc' Hhd Hls Hq].
  { eexists _, _, _. split; [done|]. split; [done|]. split; [done|]. done. }
  rewrite Hp, Ht.
  assert (self ∉ ls') as Hsls by (by eapply chain_at_not_waitlist).
  assert (t ∉ ls') as Htls by (by eapply chain_at_not_tables).
  assert (self ≠ t) as Hst by (intros Heq; rewrite Heq in Hself; congruence).
  destruct (first_fitting (party_size n) (sorted_keys (tables w))) as [c|] eqn:Hf.
  2:{ eexists _, _, _. split; [done|]. split; [done|]. split; [done|]. done. }
  case_bool_decide.
  { eexists _, _, _. split; [done|]. split; [done|]. split; [done|]. done. }
  destruct (first_fitting_Some _ _ _ (sorted_keys_ascending _) Hf) as (Hin & _).
  apply elem_of_sorted_keys, elem_of_dom in Hin as [free Hfree].
  rewrite Hfree. simpl.
  case_bool_decide.
  2:{ eexists _, _, _. split; [done|]. split; [done|]. split; [done|]. done. }
  eexists _, _, _. split; [done|]. split; [done|]. split; [|split; [|done]].
  - exists next, t. simpl.
    split; [by rewrite lookup_insert_eq|].
    split; [by rewrite lookup_insert_ne, lookup_insert_eq|].
    eapply chain_at_chain.
    apply chain_at_insert_other; [|done]. by apply chain_at_insert_other.
  - rewrite !store_dom_insert_present; [done|by eapply elem_of_dom_2|].
    rewrite store_dom_insert_present; by eapply elem_of_dom_2.
Qed.

(** X14: on a store holding the engine in state [w], the linked-list
    [call_next_table] returns what [call_next_table] returns on the queue
    and leaves the engine in the state that one gives; it allocates nothing,
    a success rewrites only the [tables] dict and the engine's [head], and a
    failure leaves the store untouched. *)
Theorem linked_call_next_table h (self : positive) (w : RestaurantWaitlist) :
  Store.represents h self w →
  ∃ r w' h',
    call_next_table w = Some (r, w')
    ∧ Linked.call_next_table self h = Some (r, h')
    ∧ Store.represents h' self w'
    ∧ dom h' = dom h
    ∧ (r.1 = false → h' = h).
Proof. exact (linked_call_next_table_aux h self w). Qed.

(** ** [free_table] and [estimate_wait_time] *)

(** [free_table] on the linked nodes: the fact behind the theorem that follows
    and behind the runs of calls further down. *)
Lemma linked_free_table_aux h (self : positive) (w : RestaurantWaitlist) (c : Z) :
  Store.represents h self w →
  ∃ h',
    Linked.free_table self c h = Some (fst (free_table w c), h')
    ∧ Store.represents h' self (snd (free_table w c))
    ∧ dom h' = dom h.
Proof.
  intros Hrep. pose proof Hrep as (hd & t & Hself & Ht & Hc).
  apply chain_chain_at in Hc as [ls Hc].
  assert (t ∉ ls) as Htls by (by eapply chain_at_not_tables).
  assert (self ≠ t) as Hst by (intros Heq; rewrite Heq in Hself; congruence).
  unfold Linked.free_table, free_table. rewrite Hself, Ht.
  destruct (tables w !! c) as [free|]; simpl.
  - eexists. split; [done|]. split.
    + exists hd, t. simpl.
      split; [by rewrite lookup_insert_ne|].
      split; [by rewrite lookup_insert_eq|].
      eapply chain_at_chain. by apply chain_at_insert_other.
    + apply store_dom_insert_present. by eapply elem_of_dom_2.
  - eexists. split; [done|]. split; [done|done].
Qed.


Lemma count_walk_spec (fuel : nat) h (size : Z) current q (count : Z) :
  Store.chain h current q →
  (length q ≤ fuel)%nat →
  Linked.count_walk fuel h size current count = Some (count_from q size count).
Proof.
  intros Hc. revert fuel count.
  induction Hc as [|p n next q Hp _ IH]; intros fuel count Hfuel.
  - by destruct fuel.
  - destruct fuel as [|fuel]; [simpl in Hfuel; lia|]. simpl in Hfuel.
    simpl. rewrite Hp. apply IH. lia.
Qed.

(** [estimate_wait_time] on the linked nodes: the fact behind the theorem that follows
    and behind the runs of calls further down. *)
Lemma linked_estimate_wait_time_aux h (self : positive) (w : RestaurantWaitlist)
    (fuel : nat) (p : Z) :
  Store.represents h self w →
  (length (head w) ≤ fuel)%nat →
  ∃ t, estimate_wait_time w p = Some t
       ∧ Linked.estimate_wait_time fuel self p h = Some t.
Proof.
  intros (hd & t & Hself & Ht & Hc) Hfuel.
  destruct (estimate_wait_time_nonneg w p) as (e & He & _).
  exists e. split; [done|]. rewrite <- He.
  unfold Linked.estimate_wait_time, estimate_wait_time, _find_suitable_table.
  rewrite Hself. rewrite (count_walk_spec fuel h p hd (head w) 0 Hc Hfuel). simpl.
  by rewrite Ht.
Qed.

(** X16: on a store holding the engine in state [w], with fuel for every
    node, the counting walk over the linked nodes and the lookup in the
    [tables] dict give exactly the estimate [estimate_wait_time] gives on
    [w]; in particular the call returns. *)
Theorem linked_estimate_wait_time h (self : positive) (w : RestaurantWaitlist)
    (fuel : nat) (p : Z) :
  Store.represents h self w →
  (length (head w) ≤ fuel)%nat →
  ∃ t, estimate_wait_time w p = Some t
       ∧ Linked.estimate_wait_time fuel self p h = Some t.
Proof. exact (linked_estimate_wait_time_aux h self w fuel p). Qed.

(** ** [cancel_reservation] *)

(** The walk stops at the last node when no successor carries [name], and
    otherwise at the node before the first one that does; skipping that
    successor gives the chain for the unlinked queue. *)
Lemma walk_to_match_spec (name : string) q :
  ∀ (fuel : nat) h (p : positive) ls (n : Node),
    Linked.chain_at h (Some p) (p :: ls) (n :: q) →
    (length q ≤ fuel)%nat →
    ∃ l ln lsz ltm lnext,
      Linked.walk_to_match fuel h name p = Some l
      ∧ l ∈ p :: ls
      ∧ h !! l = Some (Store.ONode ln lsz ltm lnext)
      ∧ match unlink name q with
        | None => lnext = None
        | Some q' =>
            ∃ found fname fsz ftm after ls',
              lnext = Some found
              ∧ h !! found = Some (Store.ONode fname fsz ftm after)
              ∧ Linked.chain_at (<[l := Store.ONode ln lsz ltm after]> h)
                  (Some p) ls' (n :: q')
        end.
Proof.
  induction q as [|m q IH]; intros fuel h p ls n Hc Hfuel.
  - inversion Hc as [|p0 n0 next ls0 q0 Hp Hc']; subst.
    inversion Hc'; subst.
    exists p, (client_name n), (party_size n), (reservation_time n), None.
    split; [by destruct fuel; simpl; rewrite Hp|].
    split; [by left|]. split; [done|done].
  - pose proof (chain_at_NoDup _ _ _ _ Hc) as Hnd.
    inversion Hc as [|p0 n0 next ls0 q0 Hp Hc']; subst.
    inversion Hc' as [|p2 m0 next2 ls2 q2 Hp2 Hc2]; subst.
    apply NoDup_cons in Hnd as [Hp_notin Hnd].
    simpl. destruct (decide (client_name m = name)) as [Hm|Hm].
    + rewrite bool_decide_eq_true_2 by done.
      exists p, (client_name n), (party_size n), (reservation_time n), (Some p2).
      split.
      { destruct fuel; simpl; rewrite Hp, Hp2;
          by rewrite bool_decide_eq_false_2 by (by intros ?). }
      split; [by left|]. split; [done|].
      exists p2, (client_name m), (party_size m), (reservation_time m), next2, (p :: ls2).
      split; [done|]. split; [done|].
      econstructor; [by rewrite lookup_insert_eq|].
      apply chain_at_insert_other; [done|].
      intros Hin. apply Hp_notin. by right.
    + rewrite bool_decide_eq_false_2 by done.
      destruct fuel as [|fuel]; [simpl in Hfuel; lia|]. simpl in Hfuel.
      destruct (IH fuel h p2 ls2 m Hc') as (l & ln & lsz & ltm & lnext & Hw & Hl & Hlo & Hres);
        [lia|].
      exists l, ln, lsz, ltm, lnext.
      split. { simpl. rewrite Hp, Hp2. by rewrite bool_decide_eq_true_2. }
      split; [by right|]. split; [done|].
      destruct (unlink name q) as [q'|]; simpl; [|done].
      destruct Hres as (found & fname & fsz & ftm & after & ls' & -> & Hfound & Hchain).
      exists found, fname, fsz, ftm, after, (p :: ls').
      split; [done|]. split; [done|].
      econstructor; [|done].
      rewrite lookup_insert_ne; [done|]. intros ->. done.
Qed.

(** [cancel_reservation] on the linked nodes: the fact behind the theorem that follows
    and behind the runs of calls further down. *)
Lemma linked_cancel_reservation_aux h (self : positive) (w : RestaurantWaitlist)
    (fuel : nat) (name : string) :
  Store.represents h self w →
  (length (head w) ≤ fuel)%nat →
  ∃ h',
    Linked.cancel_reservation fuel self name h
    = Some (fst (cancel_reservation w name), h')
    ∧ Store.represents h' self (snd (cancel_reservation w name))
    ∧ dom h' = dom h.
Proof.
  intros Hrep Hfuel. pose proof Hrep as (hd & t & Hself & Ht & Hc).
  apply chain_chain_at in Hc as [ls Hc].
  assert (self ≠ t) as Hst by (intros Heq; rewrite Heq in Hself; congruence).
  unfold Linked.cancel_reservation, cancel_reservation. rewrite Hself.
  inversion Hc as [Hhd Hls Hq|first n next ls' q' Hp Hc' Hhd Hls Hq].
  { eexists. split; [done|]. split; [done|done]. }
  rewrite Hp.
  assert (self ∉ first :: ls') as Hsls.
  { eapply chain_at_not_waitlist; [|done]. by econstructor. }
  assert (t ∉ first :: ls') as Htls.
  { eapply chain_at_not_tables; [|done]. by econstructor. }
  case_bool_decide as Hfirst.
  { eexists. split; [done|]. simpl. split.
    - exists next, t. simpl.
      split; [by rewrite lookup_insert_eq|].
      split; [by rewrite lookup_insert_ne|].
      eapply chain_at_chain. apply chain_at_insert_other; [done|].
      intros Hin. apply Hsls. by right.
    - apply store_dom_insert_present. by eapply elem_of_dom_2. }
  destruct (walk_to_match_spec name q' fuel h first ls' n)
    as (l & ln & lsz & ltm & lnext & Hw & Hl & Hlo & Hres).
  { by econstructor. }
  { rewrite <- Hq in Hfuel. simpl in Hfuel. lia. }
  rewrite Hw. simpl. rewrite Hlo.
  destruct (unlink name q') as [q''|].
  - destruct Hres as (found & fname & fsz & ftm & after & ls'' & -> & Hfound & Hchain).
    rewrite Hfound. eexists. split; [done|]. simpl. split.
    + exists (Some first), t. simpl.
      split; [rewrite lookup_insert_ne; [by rewrite Hhd|intros ->; by apply Hsls]|].
      split; [rewrite lookup_insert_ne; [done|intros ->; by apply Htls]|].
      by eapply chain_at_chain.
    + apply store_dom_insert_present. by eapply elem_of_dom_2.
  - subst lnext. eexists. split; [done|]. split; [done|done].
Qed.


(** ** Walks end, and whole runs agree *)

Lemma represents_length_le_size h (self : positive) (w : RestaurantWaitlist) :
  Store.represents h self w → (length (head w) ≤ size h)%nat.
Proof.
  intros (hd & t & _ & _ & Hc). apply chain_chain_at in Hc as [ls Hc].
  by eapply chain_at_size.
Qed.

Lemma two_clients_represents :
  Store.represents Linked.two_clients 1%positive
    (add_clients __init__ [mkNode "Ana" 2 "19:00"; mkNode "Bob" 4 "19:05"]).
Proof.
  exists (Some 3%positive), 2%positive.
  split; [reflexivity|]. split; [reflexivity|].
  apply (Store.chain_cons _ 3%positive (mkNode "Ana" 2 "19:00") (Some 4%positive));
    [reflexivity|].
  apply (Store.chain_cons _ 4%positive (mkNode "Bob" 4 "19:05") None);
    [reflexivity|].
  apply Store.chain_nil.
Qed.

Lemma store_get_waitlist_represents h (self : positive) (w : RestaurantWaitlist)
    (fuel : nat) :
  Store.represents h self w →
  (length (head w) ≤ fuel)%nat →
  ∃ clients h',
    Store.get_waitlist fuel self h = Some (clients, h')
    ∧ Store.represents h' self w.
Proof.
  intros Hrep Hfuel. pose proof Hrep as (hd & t & Hself & Ht & Hc).
  set (clients := fresh (dom h)).
  assert (clients ∉ dom h) as Hcl by apply is_fresh.
  assert (∀ l o, h !! l = Some o → l ≠ clients) as Hne.
  { intros l o Hlo ->. apply Hcl. by eapply elem_of_dom_2. }
  destruct (get_waitlist_loop_spec h hd (head w) Hc fuel
              (<[clients := Store.OList []]> h) clients [])
    as (h' & items & Hrun & _ & _ & _ & _ & Hkeep).
  - done.
  - intros l o Hlo. rewrite lookup_insert_ne; [done|]. intros <-. by eapply Hne.
  - done.
  - by rewrite lookup_insert_eq.
  - exists clients, h'. split.
    + unfold Store.get_waitlist. rewrite Hself. fold clients. by rewrite Hrun.
    + eapply represents_agree; [done|].
      intros l o Hlo. apply Hkeep; [by eapply Hne|].
      rewrite lookup_insert_ne; [done|]. intros <-. by eapply Hne.
Qed.

Lemma linked_step_simulates (o : op) h (self : positive) (w : RestaurantWaitlist) :
  Store.represents h self w →
  ∃ w' h', step o w = Some w' ∧ Linked.step o self h = Some h'
           ∧ Store.represents h' self w'.
Proof.
  intros Hrep. pose proof (represents_length_le_size _ _ _ Hrep) as Hfuel.
  destruct o as [n p t| |n|p| |c]; simpl.
  - destruct (linked_add_client_aux h self w (size h) n p t Hrep Hfuel)
      as (h' & Hrun & Hrep' & _).
    eexists _, _. split; [done|]. split; [exact Hrun|done].
  - destruct (linked_call_next_table_aux h self w Hrep)
      as (r & w' & h' & Hp & Hl & Hrep' & _).
    rewrite Hp, Hl. simpl. eauto.
  - destruct (linked_cancel_reservation_aux h self w (size h) n Hrep Hfuel)
      as (h' & Hl & Hrep' & _).
    rewrite Hl. simpl. eauto.
  - destruct (linked_estimate_wait_time_aux h self w (size h) p Hrep Hfuel)
      as (e & Hp & Hl).
    rewrite Hp, Hl. simpl. eauto.
  - destruct (store_get_waitlist_represents h self w (size h) Hrep Hfuel)
      as (clients & h' & Hl & Hrep').
    rewrite Hl. simpl. eauto.
  - destruct (linked_free_table_aux h self w c Hrep) as (h' & Hl & Hrep' & _).
    rewrite Hl. simpl. eauto.
Qed.

Lemma linked_init_represents h :
  Store.represents (Linked.__init__ h).2 (Linked.__init__ h).1 __init__
  ∧ h ⊆ (Linked.__init__ h).2.
Proof.
  unfold Linked.__init__. simpl.
  set (self := fresh (dom h)). set (t := fresh ({[self]} ∪ dom h)).
  assert (self ∉ dom h) as Hself by apply is_fresh.
  assert (t ∉ {[self]} ∪ dom h) as Ht by apply is_fresh.
  assert (self ≠ t) as Hst by (intros Heq; apply Ht; rewrite <- Heq; set_solver).
  assert (t ∉ dom h) as Htdom by (intros Hin; apply Ht; set_solver).
  split.
  - exists None, t. split; [by rewrite lookup_insert_eq|].
    split; [by rewrite lookup_insert_ne, lookup_insert_eq|]. constructor.
  - apply insert_subseteq_r; [by apply not_elem_of_dom|].
    apply insert_subseteq. by apply not_elem_of_dom.
Qed.

(** X18: the linked-list engine, constructed in any store and then called
    in any order with any arguments, never raises and never walks forever
    (fuel for as many passes as the store has objects is always enough), and
    after every run the store holds the engine in exactly the state the same
    run gives on the queue; the objects that were in the store before the
    construction are not touched by the construction. *)
Theorem linked_run_simulates h (ops : list op) :
  let '(self, h0) := Linked.__init__ h in
  h ⊆ h0
  ∧ ∃ w h',
      run ops __init__ = Some w
      ∧ Linked.run ops self h0 = Some h'
      ∧ Store.represents h' self w.
Proof.
  destruct (linked_init_represents h) as [Hrep Hsub].
  destruct (Linked.__init__ h) as [self h0]. simpl in *.
  split; [done|]. clear Hsub. revert Hrep. generalize __init__ as w. revert h0.
  induction ops as [|o ops IH]; intros h0 w Hrep; simpl; [by eauto|].
  destruct (linked_step_simulates o h0 self w Hrep) as (w1 & h1 & Hp & Hl & Hrep1).
  rewrite Hp. cbn [Linked.run]. rewrite Hl. simpl. by apply IH.
Qed.

(** X19: a queue held in the store is not cyclic: it has at most as many
    entries as the store has objects, which is why fuel for [size h] passes
    is enough for every walk: with it [add_client], [cancel_reservation],
    [estimate_wait_time] and [get_waitlist] all return. *)
Theorem linked_walks_end h (self : positive) (w : RestaurantWaitlist)
    (name : string) (size : Z) (time : string) :
  Store.represents h self w →
  (length (head w) ≤ base.size h)%nat
  ∧ is_Some (Linked.add_client (base.size h) self name size time h)
  ∧ is_Some (Linked.cancel_reservation (base.size h) self name h)
  ∧ is_Some (Linked.estimate_wait_time (base.size h) self size h)
  ∧ is_Some (Store.get_waitlist (base.size h) self h).
Proof.
  intros Hrep. pose proof (represents_length_le_size _ _ _ Hrep) as Hfuel.
  split; [done|]. split; [|split; [|split]].
  - destruct (linked_add_client_aux h self w (base.size h) name size time Hrep Hfuel)
      as (h' & -> & _). eauto.
  - destruct (linked_cancel_reservation_aux h self w (base.size h) name Hrep Hfuel)
      as (h' & -> & _). eauto.
  - destruct (linked_estimate_wait_time_aux h self w (base.size h) size Hrep Hfuel)
      as (e & _ & ->). eauto.
  - destruct (store_get_waitlist_represents h self w (base.size h) Hrep Hfuel)
      as (clients & h' & -> & _). eauto.
Qed.

End linked_facts.

Lemma linked_add_client_witness :
  let w := add_clients __init__ [mkNode "Ana" 2 "19:00"; mkNode "Bob" 4 "19:05"] in
  let h := Linked.two_clients in
  ∃ h',
    Linked.add_client 2 1%positive "Eva" 6 "19:10" h = Some h'
    ∧ Store.represents h' 1%positive (add_client w "Eva" 6 "19:10")
    ∧ dom h' = {[fresh (dom h)]} ∪ dom h
    ∧ h' !! fresh (dom h) = Some (Store.ONode "Eva" 6 "19:10" None).
Proof.
  intros w h. apply (linked_add_client h 1%positive w 2 "Eva" 6 "19:10").
  - exact two_clients_represents.
  - simpl. lia.
Defined.

Lemma linked_call_next_table_witness :
  let w := add_clients __init__ [mkNode "Ana" 2 "19:00"; mkNode "Bob" 4 "19:05"] in
  let h := Linked.two_clients in
  ∃ r w' h',
    call_next_table w = Some (r, w')
    ∧ Linked.call_next_table 1%positive h = Some (r, h')
    ∧ Store.represents h' 1%positive w'
    ∧ dom h' = dom h
    ∧ (r.1 = false → h' = h).
Proof.
  intros w h. apply (linked_call_next_table h 1%positive w).
  exact two_clients_represents.
Defined.


Lemma linked_estimate_wait_time_witness :
  let w := add_clients __init__ [mkNode "Ana" 2 "19:00"; mkNode "Bob" 4 "19:05"] in
  ∃ t, estimate_wait_time w 4 = Some t
       ∧ Linked.estimate_wait_time 2 1%positive 4 Linked.two_clients = Some t.
Proof.
  intros w. apply (linked_estimate_wait_time Linked.two_clients 1%positive w 2 4).
  - exact two_clients_represents.
  - simpl. lia.
Defined.


Lemma linked_walks_end_witness :
  let w := add_clients __init__ [mkNode "Ana" 2 "19:00"; mkNode "Bob" 4 "19:05"] in
  let h := Linked.two_clients in
  (length (head w) ≤ size h)%nat
  ∧ is_Some (Linked.add_client (size h) 1%positive "Eva" 6 "19:10" h)
  ∧ is_Some (Linked.cancel_reservation (size h) 1%positive "Eva" h)
  ∧ is_Some (Linked.estimate_wait_time (size h) 1%positive 6 h)
  ∧ is_Some (Store.get_waitlist (size h) 1%positive h).
Proof.
  intros w h. apply (linked_walks_end h 1%positive w "Eva" 6 "19:10").
  exact two_clients_represents.
Defined.

(** Bob's node is unlinked from Ana's: the walk of [get_waitlist] over the
    store after the call meets Ana alone. *)
Example linked_cancel_then_snapshot :
  ('(_, h1) ← Linked.cancel_reservation 2 1%positive "Bob" Linked.two_clients;
   '(clients, h2) ← Store.get_waitlist 2 1%positive h1;
   snd <$> Store.read_rows h2 clients)
  = Some [ {[ "name" := VStr "Ana"; "party_size" := VInt 2; "time" := VStr "19:00" ]} ].
Proof. vm_compute. reflexivity. Qed.

(** * The rows of the display *)

Lemma row_lookup (n : Node) :
  row n !! "party_size" = Some (VInt (party_size n))
  ∧ row n !! "name" = Some (VStr (client_name n))
  ∧ row n !! "time" = Some (VStr (reservation_time n)).
Proof. unfold row. by simplify_map_eq. Qed.

Lemma tree_rows_from_spec (self : RestaurantWaitlist) (q : list Node) (k : Z) :
  ∃ rows,
    tree_rows_from self k (row <$> q) = Some rows
    ∧ length rows = length q
    ∧ ∀ (i : nat) n, q !! i = Some n →
        ∃ t, estimate_wait_time self (party_size n) = Some t
             ∧ 0 ≤ t
             ∧ rows !! i
               = Some (k + Z.of_nat i, VStr (client_name n),
                       pretty (party_size n) +:+ " personas",
                       VStr (reservation_time n), pretty t +:+ " min").
Proof.
  revert k. induction q as [|m q IH]; intros k.
  - exists []. split; [done|]. split; [done|]. intros i n Hi. by rewrite lookup_nil in Hi.
  - destruct (IH (k + 1)) as (rows & Hrows & Hlen & Hall).
    destruct (estimate_wait_time_nonneg self (party_size m)) as (t & Ht & Ht0).
    destruct (row_lookup m) as (Hsize & Hname & Htime).
    eexists. split; [|split].
    + cbn [fmap list_fmap tree_rows_from]. rewrite Hsize. simpl. rewrite Ht. simpl.
      rewrite Hname, Htime. simpl. rewrite Hrows. simpl. reflexivity.
    + simpl. by rewrite Hlen.
    + intros [|i] n Hi; simpl in Hi.
      * injection Hi as <-. exists t. split; [done|]. split; [done|].
        simpl. by rewrite Z.add_0_r.
      * destruct (Hall i n Hi) as (t' & Ht' & Ht'0 & Hrow).
        exists t'. split; [done|]. split; [done|].
        simpl. rewrite Hrow.
        by replace (k + Z.of_nat (S i)) with (k + 1 + Z.of_nat i) by lia.
Qed.

(** X20: the loop of [update_displays] never raises: the keys it reads
    from a row are the keys [get_waitlist] writes, and the estimate it asks
    for is always computed.  It shows one line per queued entry, in queue
    order and numbered from 1, with the entry's name and time, its party
    size followed by " personas" and the estimate for that party size,
    which is never negative, followed by " min". *)
Theorem tree_rows_spec (self : RestaurantWaitlist) :
  ∃ rows,
    tree_rows self = Some rows
    ∧ length rows = length (head self)
    ∧ ∀ (i : nat) n, head self !! i = Some n →
        ∃ t, estimate_wait_time self (party_size n) = Some t
             ∧ 0 ≤ t
             ∧ rows !! i
               = Some (1 + Z.of_nat i, VStr (client_name n),
                       pretty (party_size n) +:+ " personas",
                       VStr (reservation_time n), pretty t +:+ " min").
Proof.
  unfold tree_rows. rewrite get_waitlist_spec. apply tree_rows_from_spec.
Qed.

Example tree_rows_two_clients :
  tree_rows (add_clients __init__ [mkNode "Ana" 2 "19:00"; mkNode "Bob" 4 "19:05"])
  = Some [ (1, VStr "Ana", "2 personas", VStr "19:00", "0 min");
           (2, VStr "Bob", "4 personas", VStr "19:05", "0 min") ].
Proof. vm_compute. reflexivity. Qed.


(** * The sizes the engine is constructed with *)

(** X21: in every state the engine reaches, [free_table] returns [True]
    exactly for the sizes 2, 4 and 6, and for every other size it returns
    [False] and changes nothing: no call ever creates a new table size. *)
Theorem free_table_reachable (self : RestaurantWaitlist) (c : Z) :
  reachable self →
  fst (free_table self c) = bool_decide (c = 2 ∨ c = 4 ∨ c = 6)
  ∧ (¬ (c = 2 ∨ c = 4 ∨ c = 6) → snd (free_table self c) = self)
  ∧ dom (tables (snd (free_table self c))) = {[2; 4; 6]}.
Proof.
  intros Hdom%reachable_sizes.
  assert (c ∈ dom (tables self) ↔ c = 2 ∨ c = 4 ∨ c = 6) as Hc.
  { rewrite Hdom. set_unfold. tauto. }
  unfold free_table.
  destruct (tables self !! c) as [free|] eqn:Hl; simpl.
  - assert (c = 2 ∨ c = 4 ∨ c = 6) as Hin by (by eapply Hc, elem_of_dom_2).
    split; [by rewrite bool_decide_eq_true_2|].
    split; [done|].
    by rewrite (dom_insert_present _ _ free).
  - assert (¬ (c = 2 ∨ c = 4 ∨ c = 6)) as Hout.
    { intros Hin. apply Hc in Hin. by apply not_elem_of_dom in Hl. }
    split; [by rewrite bool_decide_eq_false_2|]. done.
Qed.

Lemma free_table_reachable_witness :
  let self := add_client __init__ "Ana" 2 "19:00" in
  fst (free_table self 3) = bool_decide (3 = 2 ∨ 3 = 4 ∨ 3 = 6)
  ∧ (¬ (3 = 2 ∨ 3 = 4 ∨ 3 = 6) → snd (free_table self 3) = self)
  ∧ dom (tables (snd (free_table self 3))) = {[2; 4; 6]}.
Proof.
  intros self. apply (free_table_reachable self 3).
  exists [AddClient "Ana" 2 "19:00"]. reflexivity.
Defined.
